(** * BookFinder: the search session controller of [src/App.jsx]

    A shallow embedding of the logic of the React component
    [BookFinderApp] and of its helpers [buildQuery], [DetailsModal] and
    [toggleFav], followed by the properties of the specification.

    Conventions of the embedding.
    - A JavaScript string is a [string], the bytes of its UTF-8 form;
      equality of strings is equality of these. [Js.toLowerCase] and the
      order [String.ltb] are the case mapping and the order of the engine
      on ASCII text; the sort is also given over the case mapping and
      the order of any engine ([Engine], [sortDocsWith]), of which
      these two are one instance.
    - A JavaScript number that holds a year, a count or a page is a [Z];
      [NaN] and [undefined] are [None].
    - An optional property of a JSON object is an [option].
    - React state is a record [State]; a render of the component sees one
      value of that record, and every closure created by that render
      ([doSearch], [exec], [loadMore], [toggleFav]) reads the state
      variables of that render, also when it runs later. *)

From Stdlib Require Import ZArith Ascii String List Sorted Permutation Lia.
From stdpp Require Import base tactics decidable option list sorting strings pretty.

Local Open Scope string_scope.
Local Open Scope list_scope.

(** ** Values of JavaScript used by the component *)

Module Js.

(** [x || d] for a number [x] that may be absent: [undefined], [null]
    and [0] are falsy. *)
Definition or_num (x : option Z) (d : Z) : Z :=
  match x with
  | Some z => if (z =? 0)%Z then d else z
  | None => d
  end.

(** [x || []] for an array that may be absent. *)
Definition or_nil {A} (x : option (list A)) : list A :=
  match x with
  | Some l => l
  | None => []
  end.

(** [x || d] for a string that may be absent: the empty string is falsy. *)
Definition or_str (x : option string) (d : string) : string :=
  match x with
  | Some "" => d
  | Some s => s
  | None => d
  end.

(** Truthiness of a string. *)
Definition truthy_str (s : string) : bool :=
  match s with
  | "" => false
  | _ => true
  end.

(** [Array.prototype.includes] on an array of strings. *)
Definition includes (l : list string) (x : string) : bool :=
  existsb (String.eqb x) l.

(** [Math.max(...l)] on a non-empty array [x :: l]. *)
Definition max_of (x : Z) (l : list Z) : Z := fold_left Z.max l x.

(** [String.prototype.toLowerCase] on text of the ASCII range: the
    letters A to Z are mapped, every other byte is left as it is. The
    sort of [doSearch] is also given with the case mapping of any engine
    ([keyFnsWith]). *)
Definition lower_ascii (c : ascii) : ascii :=
  let n := N_of_ascii c in
  if ((65 <=? n) && (n <=? 90))%N then ascii_of_N (n + 32) else c.

Fixpoint toLowerCase (s : string) : string :=
  match s with
  | EmptyString => EmptyString
  | String c s' => String (lower_ascii c) (toLowerCase s')
  end.

(** [String.prototype.toUpperCase] on text of the ASCII range. *)
Definition upper_ascii (c : ascii) : ascii :=
  let n := N_of_ascii c in
  if ((97 <=? n) && (n <=? 122))%N then ascii_of_N (n - 32) else c.

Fixpoint toUpperCase (s : string) : string :=
  match s with
  | EmptyString => EmptyString
  | String c s' => String (upper_ascii c) (toUpperCase s')
  end.

(** [Array.prototype.join] on an array of strings. *)
Fixpoint join (sep : string) (l : list string) : string :=
  match l with
  | [] => ""
  | [x] => x
  | x :: l' => x +:+ sep +:+ join sep l'
  end.

(** [parseInt(s, 10)]: leading white space is skipped, one sign is
    read, then the longest prefix of decimal digits; no digit gives
    [NaN], here [None]. White space is what the language counts as
    white space or as a line terminator: the characters U+0009 to
    U+000D and U+0020, which are one byte each, U+00A0, which is two,
    and U+1680, U+2000 to U+200A, U+2028, U+2029, U+202F, U+205F, U+3000
    and U+FEFF, which are three. *)
Definition is_space (c : ascii) : bool :=
  let n := N_of_ascii c in
  ((n =? 32) || ((9 <=? n) && (n <=? 13)))%N.

Definition is_space2 (c1 c2 : ascii) : bool :=
  ((N_of_ascii c1 =? 194) && (N_of_ascii c2 =? 160))%N.

Definition is_space3 (c1 c2 c3 : ascii) : bool :=
  let n1 := N_of_ascii c1 in
  let n2 := N_of_ascii c2 in
  let n3 := N_of_ascii c3 in
  (((n1 =? 225) && (n2 =? 154) && (n3 =? 128)) ||
   ((n1 =? 226) && (n2 =? 128) &&
    (((128 <=? n3) && (n3 <=? 138)) || (n3 =? 168) || (n3 =? 169) || (n3 =? 175))) ||
   ((n1 =? 226) && (n2 =? 129) && (n3 =? 159)) ||
   ((n1 =? 227) && (n2 =? 128) && (n3 =? 128)) ||
   ((n1 =? 239) && (n2 =? 187) && (n3 =? 191)))%N.

Definition digit_of (c : ascii) : option Z :=
  let n := N_of_ascii c in
  if ((48 <=? n) && (n <=? 57))%N then Some (Z.of_N n - 48)%Z else None.

Fixpoint skip_space (s : string) : string :=
  match s with
  | String c1 s1 =>
      if is_space c1 then skip_space s1
      else match s1 with
           | String c2 s2 =>
               if is_space2 c1 c2 then skip_space s2
               else match s2 with
                    | String c3 s3 =>
                        if is_space3 c1 c2 c3 then skip_space s3 else s
                    | EmptyString => s
                    end
           | EmptyString => s
           end
  | EmptyString => s
  end.

Fixpoint digits (acc : option Z) (s : string) : option Z :=
  match s with
  | String c s' =>
      match digit_of c with
      | Some d => digits (Some (10 * default 0%Z acc + d)%Z) s'
      | None => acc
      end
  | EmptyString => acc
  end.

Definition parseInt (s : string) : option Z :=
  match skip_space s with
  | String "-" s' => Z.opp <$> digits None s'
  | String "+" s' => digits None s'
  | s' => digits None s'
  end.

(** [Array.prototype.sort(cmp)]. The language requires the sort to be
    stable and, for a consistent comparator, the result to be ordered by
    it; the result is then the same for every algorithm. The elements
    are inserted from the right, each one in front of the first element
    that it does not follow. *)
Fixpoint insert {A} (cmp : A → A → Z) (x : A) (l : list A) : list A :=
  match l with
  | [] => [x]
  | y :: l' => if (cmp x y <=? 0)%Z then x :: l else y :: insert cmp x l'
  end.

Definition sort {A} (cmp : A → A → Z) (l : list A) : list A :=
  foldr (insert cmp) [] l.

(** A [Set] of strings in insertion order, as [Array.from] lists it. *)
Definition set_add (s : list string) (x : string) : list string :=
  if includes s x then s else s ++ [x].

(** [o[k]] on an object literal with string values, given by its entries. *)
Fixpoint prop (o : list (string * string)) (k : string) : option string :=
  match o with
  | [] => None
  | (k', v) :: o' => if String.eqb k' k then Some v else prop o' k
  end.

(** An [Error] object: its [name] and its [message]. *)
Record Error := { name : string; message : string }.

End Js.

(** ** The data model *)

(** One element of [docs] in the answer of the search endpoint, with the
    fields that [buildQuery] requests. [ratings_average] is requested but
    never read. *)
Module Doc.
Record t := mk {
  key : string;
  title : option string;
  subtitle : option string;
  author_name : option (list string);
  first_publish_year : option Z;
  publish_year : option (list Z);
  publisher : option (list string);
  edition_count : option Z;
  cover_i : option Z;
  language : option (list string);
  ebook_count_i : option Z;
  subject : option (list string)
}.
End Doc.
Abbreviation Doc := Doc.t.

Inductive Mode := ModeAll | ModeTitle | ModeAuthor | ModeIsbn.

Inductive SortBy := ByRelevance | ByTitle | ByAuthor | ByYear | ByLatest.

#[global] Instance Mode_eq_dec : EqDecision Mode.
Proof. solve_decision. Defined.

#[global] Instance SortBy_eq_dec : EqDecision SortBy.
Proof. solve_decision. Defined.

(** The state variables listed in the dependency array of the search
    effect: a change of one of them runs the effect again. *)
Record Params := MkParams {
  mode : Mode; query : string; title : string; author : string;
  isbn : string; subject : string; perPage : Z; langFilter : string;
  ebookOnly : bool; yearMin : string; yearMax : string; sortBy : SortBy
}.

(** The remaining state variables of [BookFinderApp] that the controller
    reads or writes ([view] and [selectedDoc] only drive the markup). *)
Record State := MkState {
  params : Params;
  page : Z;
  loading : bool;
  error : string;
  results : list Doc;
  numFound : Z;
  favorites : list Doc;
  availableLangs : list string;
  availableSubjects : list string;
  availablePublishers : list string
}.

Definition setParams (v : Params) (s : State) : State :=
  {| params := v; page := page s; loading := loading s; error := error s;
     results := results s; numFound := numFound s; favorites := favorites s;
     availableLangs := availableLangs s;
     availableSubjects := availableSubjects s;
     availablePublishers := availablePublishers s |}.

Definition setPage (v : Z) (s : State) : State :=
  {| params := params s; page := v; loading := loading s; error := error s;
     results := results s; numFound := numFound s; favorites := favorites s;
     availableLangs := availableLangs s;
     availableSubjects := availableSubjects s;
     availablePublishers := availablePublishers s |}.

Definition setLoading (v : bool) (s : State) : State :=
  {| params := params s; page := page s; loading := v; error := error s;
     results := results s; numFound := numFound s; favorites := favorites s;
     availableLangs := availableLangs s;
     availableSubjects := availableSubjects s;
     availablePublishers := availablePublishers s |}.

Definition setError (v : string) (s : State) : State :=
  {| params := params s; page := page s; loading := loading s; error := v;
     results := results s; numFound := numFound s; favorites := favorites s;
     availableLangs := availableLangs s;
     availableSubjects := availableSubjects s;
     availablePublishers := availablePublishers s |}.

Definition setResults (v : list Doc) (s : State) : State :=
  {| params := params s; page := page s; loading := loading s; error := error s;
     results := v; numFound := numFound s; favorites := favorites s;
     availableLangs := availableLangs s;
     availableSubjects := availableSubjects s;
     availablePublishers := availablePublishers s |}.

Definition setNumFound (v : Z) (s : State) : State :=
  {| params := params s; page := page s; loading := loading s; error := error s;
     results := results s; numFound := v; favorites := favorites s;
     availableLangs := availableLangs s;
     availableSubjects := availableSubjects s;
     availablePublishers := availablePublishers s |}.

Definition setFavorites (v : list Doc) (s : State) : State :=
  {| params := params s; page := page s; loading := loading s; error := error s;
     results := results s; numFound := numFound s; favorites := v;
     availableLangs := availableLangs s;
     availableSubjects := availableSubjects s;
     availablePublishers := availablePublishers s |}.

Definition setAvailableLangs (v : list string) (s : State) : State :=
  {| params := params s; page := page s; loading := loading s; error := error s;
     results := results s; numFound := numFound s; favorites := favorites s;
     availableLangs := v;
     availableSubjects := availableSubjects s;
     availablePublishers := availablePublishers s |}.

Definition setAvailableSubjects (v : list string) (s : State) : State :=
  {| params := params s; page := page s; loading := loading s; error := error s;
     results := results s; numFound := numFound s; favorites := favorites s;
     availableLangs := availableLangs s;
     availableSubjects := v;
     availablePublishers := availablePublishers s |}.

Definition setAvailablePublishers (v : list string) (s : State) : State :=
  {| params := params s; page := page s; loading := loading s; error := error s;
     results := results s; numFound := numFound s; favorites := favorites s;
     availableLangs := availableLangs s;
     availableSubjects := availableSubjects s;
     availablePublishers := v |}.

(** ** [buildQuery] *)

Module Url.

(** A [URL] object: the address without its query, and the entries of
    its [searchParams] in order. *)
Record t := mk { base : string; searchParams : list (string * string) }.

(** [URLSearchParams.prototype.set]: the first entry of that name takes
    the value and the later ones go; without one the entry is added at
    the end. *)
Fixpoint set (k v : string) (ps : list (string * string)) : list (string * string) :=
  match ps with
  | [] => [(k, v)]
  | (k', v') :: ps' =>
      if String.eqb k' k
      then (k, v) :: List.filter (λ p, negb (String.eqb (fst p) k)) ps'
      else (k', v') :: set k v ps'
  end.

(** [URLSearchParams.prototype.get]. *)
Fixpoint get (k : string) (ps : list (string * string)) : option string :=
  match ps with
  | [] => None
  | (k', v') :: ps' => if String.eqb k' k then Some v' else get k ps'
  end.

Definition hex (n : N) : ascii :=
  if (n <? 10)%N then ascii_of_N (48 + n) else ascii_of_N (55 + n).

(** The form-urlencoded serialisation of one byte. *)
Definition encode_byte (c : ascii) : string :=
  let n := N_of_ascii c in
  if (((48 <=? n) && (n <=? 57)) || ((65 <=? n) && (n <=? 90)) ||
      ((97 <=? n) && (n <=? 122)) ||
      (n =? 42) || (n =? 45) || (n =? 46) || (n =? 95))%N
  then String c ""
  else if (n =? 32)%N then "+"
  else String "%" (String (hex (n / 16)) (String (hex (n mod 16)) "")).

Fixpoint encode (s : string) : string :=
  match s with
  | EmptyString => ""
  | String c s' => encode_byte c +:+ encode s'
  end.

(** [URL.prototype.toString]. *)
Definition toString (u : t) : string :=
  match searchParams u with
  | [] => base u
  | ps => base u +:+ "?" +:+
          Js.join "&" (map (λ p, encode (fst p) +:+ "=" +:+ encode (snd p)) ps)
  end.

End Url.

Definition OPENLIB_SEARCH : string := "https://openlibrary.org/search.json".

Definition fields : list string :=
  ["key"; "title"; "subtitle"; "author_name"; "first_publish_year";
   "publish_year"; "publisher"; "edition_count"; "cover_i"; "language";
   "ebook_count_i"; "subject"; "ratings_average"].

(** [when c f x]: the statement [if (c) x = f(x)]. *)
Definition when {A} (c : bool) (f : A → A) (x : A) : A := if c then f x else x.

(** The [URL] object that [buildQuery] fills in; the arguments are the
    properties of its argument object, in the order of the source. *)
Definition buildQueryUrl (mode : Mode) (query author title isbn subject : string)
    (page perPage : Z) : Url.t :=
  let sp : list (string * string) := [] in
  let sp := when (bool_decide (mode = ModeAll) && Js.truthy_str query)
              (Url.set "q" query) sp in
  let sp := when (bool_decide (mode = ModeTitle) && Js.truthy_str title)
              (Url.set "title" title) sp in
  let sp := when (bool_decide (mode = ModeAuthor) && Js.truthy_str author)
              (Url.set "author" author) sp in
  let sp := when (bool_decide (mode = ModeIsbn) && Js.truthy_str isbn)
              (Url.set "isbn" isbn) sp in
  let sp := when (Js.truthy_str subject) (Url.set "subject" subject) sp in
  let sp := when (negb (page =? 0)%Z) (Url.set "page" (pretty page)) sp in
  let sp := when (negb (perPage =? 0)%Z) (Url.set "limit" (pretty perPage)) sp in
  let sp := Url.set "fields" (Js.join "," fields) sp in
  Url.mk OPENLIB_SEARCH sp.

Definition buildQuery (mode : Mode) (query author title isbn subject : string)
    (page perPage : Z) : string :=
  Url.toString (buildQueryUrl mode query author title isbn subject page perPage).

(** ** The body of [exec]: filters, facets and sort *)

(** [if (ebookOnly) filtered = filtered.filter(...)]. *)
Definition ebookFilter (ebookOnly : bool) (docs : list Doc) : list Doc :=
  when ebookOnly
    (List.filter (λ d, (0 <? Js.or_num (Doc.ebook_count_i d) 0)%Z)) docs.

(** [if (langFilter !== "any") filtered = filtered.filter(...)]. *)
Definition languageFilter (langFilter : string) (docs : list Doc) : list Doc :=
  when (negb (String.eqb langFilter "any"))
    (List.filter (λ d, Js.includes (Js.or_nil (Doc.language d)) langFilter)) docs.

(** The two year filters, on the texts of the two year inputs. *)
Definition yearFilter (yearMin yearMax : string) (docs : list Doc) : list Doc :=
  let yMin := Js.parseInt yearMin in
  let yMax := Js.parseInt yearMax in
  let filtered := docs in
  let filtered :=
    match yMin with
    | Some yMin =>
        List.filter (λ d, (yMin <=? Js.or_num (Doc.first_publish_year d) 0)%Z) filtered
    | None => filtered
    end in
  let filtered :=
    match yMax with
    | Some yMax =>
        List.filter (λ d, (Js.or_num (Doc.first_publish_year d) 99999 <=? yMax)%Z) filtered
    | None => filtered
    end in
  filtered.

Definition clientFilters (p : Params) (docs : list Doc) : list Doc :=
  yearFilter (yearMin p) (yearMax p)
    (languageFilter (langFilter p) (ebookFilter (ebookOnly p) docs)).

(** One of the three sets filled by [combined.forEach]: the values
    [sample d] of every record are added in order. *)
Definition collect (sample : Doc → list string) (combined : list Doc) : list string :=
  fold_left (λ set d, fold_left Js.set_add (sample d) set) combined [].

Definition langsOf (combined : list Doc) : list string :=
  take 20 (collect (λ d, Js.or_nil (Doc.language d)) combined).

Definition subjectsOf (combined : list Doc) : list string :=
  take 50 (collect (λ d, take 10 (Js.or_nil (Doc.subject d))) combined).

Definition publishersOf (combined : list Doc) : list string :=
  take 30 (collect (λ d, take 3 (Js.or_nil (Doc.publisher d))) combined).

(** A sort key is a number or a string. *)
Inductive Key := KNum (n : Z) | KStr (s : string).

(** [a > b], [a < b] and [a - b] on two keys of one kind; one key function
    serves both sides of a comparison, so the kinds never differ. *)
Definition key_gt (a b : Key) : bool :=
  match a, b with
  | KNum x, KNum y => (y <? x)%Z
  | KStr x, KStr y => String.ltb y x
  | _, _ => false
  end.

Definition key_lt (a b : Key) : bool := key_gt b a.

Definition key_sub (a b : Key) : Z :=
  match a, b with
  | KNum x, KNum y => (x - y)%Z
  | _, _ => 0%Z
  end.

Definition keyFns (sortBy : SortBy) (d : Doc) : Key :=
  match sortBy with
  | ByRelevance => KNum 0
  | ByTitle => KStr (Js.toLowerCase (Js.or_str (Doc.title d) ""))
  | ByAuthor => KStr (Js.toLowerCase (Js.or_str (Doc.author_name d ≫= head) ""))
  | ByYear => KNum (Js.or_num (Doc.first_publish_year d) 0)
  | ByLatest =>
      KNum match Doc.publish_year d with
           | Some (y :: ys) => Js.max_of y ys
           | _ => Js.or_num (Doc.first_publish_year d) 0
           end
  end.

(** The comparator handed to [sort]. *)
Definition comparator (sortBy : SortBy) (a b : Doc) : Z :=
  let keyFn := keyFns sortBy in
  match sortBy with
  | ByYear | ByLatest => key_sub (keyFn b) (keyFn a)
  | _ => if key_gt (keyFn a) (keyFn b) then 1%Z
         else if key_lt (keyFn a) (keyFn b) then (-1)%Z else 0%Z
  end.

Definition sortDocs (sortBy : SortBy) (combined : list Doc) : list Doc :=
  Js.sort (comparator sortBy) combined.

(** ** The sort over the strings of an engine *)

(** Text of the ASCII range: every byte is below 128. *)
Fixpoint is_ascii (s : string) : bool :=
  match s with
  | EmptyString => true
  | String c s' => (N_of_ascii c <? 128)%N && is_ascii s'
  end.

(** What the sort takes from the strings of the language: the case
    mapping [toLowerCase] and the relation [<], which is a strict total
    order (the order of the UTF-16 code units). On text of the ASCII
    range the case mapping is [Js.toLowerCase] and the order is the one
    of the bytes. *)
Record Engine := MkEngine {
  str_lower : string → string;
  str_lt : string → string → bool;
  str_lt_irrefl s : str_lt s s = false;
  str_lt_trans s t u : str_lt s t = true → str_lt t u = true → str_lt s u = true;
  str_lt_total s t : str_lt s t = false → str_lt t s = false → s = t;
  str_lower_ascii s : is_ascii s = true → str_lower s = Js.toLowerCase s;
  str_lt_ascii s t :
    is_ascii s = true → is_ascii t = true → str_lt s t = String.ltb s t
}.

(** [a > b] and [a < b] on two keys of one kind, with the strings of the
    engine [E]. *)
Definition key_gtWith (E : Engine) (a b : Key) : bool :=
  match a, b with
  | KNum x, KNum y => (y <? x)%Z
  | KStr x, KStr y => str_lt E y x
  | _, _ => false
  end.

Definition key_ltWith (E : Engine) (a b : Key) : bool := key_gtWith E b a.

(** [keyFns], the comparator and the sort of [doSearch] with the strings
    of the engine [E]; [keyFns], [comparator] and [sortDocs] above are
    these with [Js.toLowerCase] and [String.ltb]. *)
Definition keyFnsWith (E : Engine) (sortBy : SortBy) (d : Doc) : Key :=
  match sortBy with
  | ByRelevance => KNum 0
  | ByTitle => KStr (str_lower E (Js.or_str (Doc.title d) ""))
  | ByAuthor => KStr (str_lower E (Js.or_str (Doc.author_name d ≫= head) ""))
  | ByYear => KNum (Js.or_num (Doc.first_publish_year d) 0)
  | ByLatest =>
      KNum match Doc.publish_year d with
           | Some (y :: ys) => Js.max_of y ys
           | _ => Js.or_num (Doc.first_publish_year d) 0
           end
  end.

Definition comparatorWith (E : Engine) (sortBy : SortBy) (a b : Doc) : Z :=
  let keyFn := keyFnsWith E sortBy in
  match sortBy with
  | ByYear | ByLatest => key_sub (keyFn b) (keyFn a)
  | _ => if key_gtWith E (keyFn a) (keyFn b) then 1%Z
         else if key_ltWith E (keyFn a) (keyFn b) then (-1)%Z else 0%Z
  end.

Definition sortDocsWith (E : Engine) (sortBy : SortBy) (combined : list Doc) :
  list Doc :=
  Js.sort (comparatorWith E sortBy) combined.

(** The case mapping on text of the ASCII range and of the capital
    letters of Latin-1, U+00C0 to U+00DE without the sign U+00D7: each
    of these is the byte 195 and a byte from 128 to 158, and its small
    letter is 32 further. *)
Definition is_latin1_capital (c1 c2 : ascii) : bool :=
  ((N_of_ascii c1 =? 195) && (128 <=? N_of_ascii c2) && (N_of_ascii c2 <=? 158)
   && negb (N_of_ascii c2 =? 151))%N.

Fixpoint lower_latin1 (s : string) : string :=
  match s with
  | EmptyString => EmptyString
  | String c1 s1 =>
      match s1 with
      | String c2 s2 =>
          if is_latin1_capital c1 c2
          then String c1 (String (ascii_of_N (N_of_ascii c2 + 32)) (lower_latin1 s2))
          else String (Js.lower_ascii c1) (lower_latin1 s1)
      | EmptyString => String (Js.lower_ascii c1) EmptyString
      end
  end.

(** ** The fetch *)

(** The parsed body of an answer: [data.docs] when it is an array,
    [data.numFound] when it is a number; or the error that [res.json()] or
    the property access throws. *)
Inductive Body :=
| Data (docs : option (list Doc)) (numFound : option Z)
| Throws (e : Js.Error).

(** How the promise of [fetch] settles. *)
Inductive Outcome :=
| Resolved (status : Z) (body : Body)
| Rejected (e : Js.Error).

(** [res.ok]. *)
Definition ok (status : Z) : bool := ((200 <=? status) && (status <=? 299))%Z.

(** The rejection of a fetch whose signal was aborted. *)
Definition AbortError : Js.Error :=
  {| Js.name := "AbortError"; Js.message := "The user aborted a request." |}.

(** [new Error(`HTTP ${res.status}`)]. *)
Definition HttpError (status : Z) : Js.Error :=
  {| Js.name := "Error"; Js.message := "HTTP " +:+ pretty status |}.

(** The function [exec] made by a call [doSearch(opts)]: the state
    variables of the render that made it, and [opts.append]. *)
Record Exec := MkExec { render : State; append : bool }.

(** The [try] block of [exec] after [await fetch]: the state after its
    setters, or the error thrown. *)
Definition exec_try (x : Exec) (o : Outcome) (s : State) : State + Js.Error :=
  match o with
  | Rejected e => inr e
  | Resolved status body =>
      if negb (ok status) then inr (HttpError status) else
      match body with
      | Throws e => inr e
      | Data docs total =>
          let docs := default [] docs in
          let filtered := clientFilters (params (render x)) docs in
          let combined :=
            if append x then results (render x) ++ filtered else filtered in
          let s := setAvailableLangs (langsOf combined) s in
          let s := setAvailableSubjects (subjectsOf combined) s in
          let s := setAvailablePublishers (publishersOf combined) s in
          let sorted := sortDocs (sortBy (params (render x))) combined in
          let s := setResults sorted s in
          let s := setNumFound (default (Z.of_nat (length sorted)) total) s in
          inl s
      end
  end.

(** The [catch] block. *)
Definition exec_catch (e : Js.Error) (s : State) : State :=
  if negb (String.eqb (Js.name e) "AbortError")
  then setError (Js.or_str (Some (Js.message e)) "Something went wrong") s
  else s.

(** [exec] from the settling of its fetch to its end, [finally] included. *)
Definition exec_settle (x : Exec) (o : Outcome) (s : State) : State :=
  let s := match exec_try x o s with
           | inl s' => s'
           | inr e => exec_catch e s
           end in
  setLoading false s.

(** ** The controller as a machine driven by events *)

(** A fetch that was issued and has not settled: the controller it was
    issued under, the address, the [exec] that awaits it, and whether its
    signal was aborted. *)
Record Request := MkRequest {
  rid : nat; url : Url.t; awaiting : Exec; aborted : bool
}.

(** The state variables as of the last render, the two refs, the pending
    zero-delay timeouts in the order of their firing, and the fetches in
    flight. [abortRef] holds the number of the last controller made;
    [debounceTimer] holds the [exec] of the timer while it has not fired. *)
Record World := MkWorld {
  st : State;
  abortRef : option nat;
  debounceTimer : option Exec;
  timeouts : list Exec;
  inflight : list Request;
  next_rid : nat
}.

(** A setter of a state variable, seen from the world. *)
Definition upd_st (f : State → State) (w : World) : World :=
  {| st := f (st w); abortRef := abortRef w; debounceTimer := debounceTimer w;
     timeouts := timeouts w; inflight := inflight w; next_rid := next_rid w |}.

(** [ctrl.abort()] on the controller numbered [id]. *)
Definition abort (id : nat) (rs : list Request) : list Request :=
  map (λ r, if Nat.eqb (rid r) id
            then MkRequest (rid r) (url r) (awaiting r) true else r) rs.

(** [exec] up to [await fetch(url, { signal: ctrl.signal })]. *)
Definition exec_start (x : Exec) (w : World) : World :=
  let s := setLoading true (setError "" (st w)) in
  let rs := match abortRef w with
            | Some id => abort id (inflight w)
            | None => inflight w
            end in
  let ctrl := next_rid w in
  let p := params (render x) in
  let u := buildQueryUrl (mode p) (query p) (author p) (title p) (isbn p)
             (subject p) (page (render x)) (perPage p) in
  {| st := s; abortRef := Some ctrl; debounceTimer := debounceTimer w;
     timeouts := timeouts w;
     inflight := rs ++ [MkRequest ctrl u x false];
     next_rid := S ctrl |}.

(** [doSearch(opts)] of the render [r]. *)
Definition doSearch (r : State) (append immediate : bool) (w : World) : World :=
  let exec := MkExec r append in
  if immediate then exec_start exec w
  else {| st := st w; abortRef := abortRef w; debounceTimer := Some exec;
          timeouts := timeouts w; inflight := inflight w;
          next_rid := next_rid w |}.

(** [setTimeout(() => doSearch({ append, immediate: true }), 0)] called
    by a handler of the render [r]. *)
Definition setTimeout0 (r : State) (append : bool) (w : World) : World :=
  {| st := st w; abortRef := abortRef w; debounceTimer := debounceTimer w;
     timeouts := timeouts w ++ [MkExec r append]; inflight := inflight w;
     next_rid := next_rid w |}.

(** The effect [useEffect(() => { setPage(1); doSearch({ append: false }) },
    [mode, ..., sortBy])] of the render [r]. *)
Definition searchEffect (r : State) (w : World) : World :=
  doSearch r false false (upd_st (setPage 1) w).

(** [onSubmit]. *)
Definition onSubmit (w : World) : World :=
  let r := st w in
  doSearch r false true (upd_st (setPage 1) w).

(** [loadMore]. *)
Definition loadMore (w : World) : World :=
  let r := st w in
  if loading r then w
  else setTimeout0 r true (upd_st (setPage (page r + 1)) w).

(** The handler of the button Prev. *)
Definition onPrev (w : World) : World :=
  let r := st w in
  if (1 <? page r)%Z
  then setTimeout0 r false (upd_st (setPage (Z.max 1 (page r - 1))) w)
  else w.

(** [isFav] of a render whose favourites are [favorites]. *)
Definition isFav (favorites : list Doc) (doc : Doc) : bool :=
  existsb (λ f, String.eqb (Doc.key f) (Doc.key doc)) favorites.

(** The updater that [toggleFav(doc)] hands to [setFavorites]; [favorites]
    is the value seen by the render, [prev] the value the updater gets. *)
Definition toggleFav (favorites : list Doc) (doc : Doc) (prev : list Doc) : list Doc :=
  if isFav favorites doc
  then List.filter (λ f, negb (String.eqb (Doc.key f) (Doc.key doc))) prev
  else doc :: prev.

Inductive Preset := PresetAi | PresetFiction | PresetResearch.

(** The handlers that write the search inputs. *)
Inductive Edit :=
| SetMode (v : Mode) | SetQuery (v : string) | SetTitle (v : string)
| SetAuthor (v : string) | SetIsbn (v : string) | SetSubject (v : string)
| SetLangFilter (v : string) | SetEbookOnly (v : bool)
| SetYearMin (v : string) | SetYearMax (v : string) | SetSortBy (v : SortBy)
| SetPerPage (v : Z) | QuickSet (preset : Preset) | Reset.

(** The state after the setters of the handler [e], in one batch. *)
Definition edit (e : Edit) (s : State) : State :=
  let p := params s in
  let '(MkParams mo qu ti au isb su pp la eb ymin ymax so) := p in
  match e with
  | SetMode v => setParams (MkParams v qu ti au isb su pp la eb ymin ymax so) s
  | SetQuery v => setParams (MkParams mo v ti au isb su pp la eb ymin ymax so) s
  | SetTitle v => setParams (MkParams mo qu v au isb su pp la eb ymin ymax so) s
  | SetAuthor v => setParams (MkParams mo qu ti v isb su pp la eb ymin ymax so) s
  | SetIsbn v => setParams (MkParams mo qu ti au v su pp la eb ymin ymax so) s
  | SetSubject v => setParams (MkParams mo qu ti au isb v pp la eb ymin ymax so) s
  | SetLangFilter v => setParams (MkParams mo qu ti au isb su pp v eb ymin ymax so) s
  | SetEbookOnly v => setParams (MkParams mo qu ti au isb su pp la v ymin ymax so) s
  | SetYearMin v => setParams (MkParams mo qu ti au isb su pp la eb v ymax so) s
  | SetYearMax v => setParams (MkParams mo qu ti au isb su pp la eb ymin v so) s
  | SetSortBy v => setParams (MkParams mo qu ti au isb su pp la eb ymin ymax v) s
  | SetPerPage v =>
      setPage 1 (setParams (MkParams mo qu ti au isb su v la eb ymin ymax so) s)
  | QuickSet PresetAi =>
      setPage 1 (setParams
        (MkParams ModeAll "artificial intelligence student textbook" ti au isb
           "computer_science" pp "eng" true ymin ymax ByLatest) s)
  | QuickSet PresetFiction =>
      setPage 1 (setParams
        (MkParams ModeTitle qu "science fiction" au isb
           "science_fiction" pp "eng" false ymin ymax ByRelevance) s)
  | QuickSet PresetResearch =>
      setPage 1 (setParams
        (MkParams ModeAuthor qu ti "Goodfellow" isb
           "" pp "eng" false ymin ymax ByLatest) s)
  | Reset =>
      setPage 1 (setParams
        (MkParams mo "" "" "" "" "" pp "any" false "" "" ByRelevance) s)
  end.

#[global] Instance Params_eq_dec : EqDecision Params.
Proof. solve_decision. Defined.

(** What can happen to the page: the user acts, a timer fires, or the
    fetch numbered [id] settles. *)
Inductive Event :=
| Input (e : Edit)
| Submit
| LoadMore
| Prev
| ToggleFav (doc : Doc)
| ClearFav
| DebounceFire
| TimeoutFire
| Settle (id : nat) (o : Outcome).

(** One event. A handler runs in the last render [st w]. An input is
    followed by a render, and by the search effect of that render when a
    dependency changed. Load more and Prev do nothing while their button
    is disabled. A fetch that settles leaves the list of the fetches in
    flight; when its signal was aborted its promise is rejected with
    [AbortError], whatever the network answered. *)
Definition step (ev : Event) (w : World) : World :=
  match ev with
  | Input e =>
      let r := edit e (st w) in
      let w' := upd_st (λ _, r) w in
      if decide (params r = params (st w)) then w' else searchEffect r w'
  | Submit => onSubmit w
  | LoadMore =>
      let r := st w in
      if loading r || (numFound r <=? Z.of_nat (length (results r)))%Z
      then w else loadMore w
  | Prev =>
      let r := st w in
      if (page r <=? 1)%Z || loading r then w else onPrev w
  | ToggleFav doc =>
      upd_st (λ s, setFavorites (toggleFav (favorites s) doc (favorites s)) s) w
  | ClearFav => upd_st (setFavorites []) w
  | DebounceFire =>
      match debounceTimer w with
      | Some exec =>
          exec_start exec
            {| st := st w; abortRef := abortRef w; debounceTimer := None;
               timeouts := timeouts w; inflight := inflight w;
               next_rid := next_rid w |}
      | None => w
      end
  | TimeoutFire =>
      match timeouts w with
      | exec :: rest =>
          exec_start exec
            {| st := st w; abortRef := abortRef w;
               debounceTimer := debounceTimer w;
               timeouts := rest; inflight := inflight w;
               next_rid := next_rid w |}
      | [] => w
      end
  | Settle id o =>
      match List.find (λ r, Nat.eqb (rid r) id) (inflight w) with
      | Some r =>
          let o := if aborted r then Rejected AbortError else o in
          {| st := exec_settle (awaiting r) o (st w); abortRef := abortRef w;
             debounceTimer := debounceTimer w; timeouts := timeouts w;
             inflight := List.filter (λ r, negb (Nat.eqb (rid r) id)) (inflight w);
             next_rid := next_rid w |}
      | None => w
      end
  end.

(** The events of a list, one after the other. *)
Definition run (evs : list Event) (w : World) : World :=
  fold_left (λ w ev, step ev w) evs w.

(** The first render: [useLocalStorage] yields the stored favourites, or
    [[]] when there are none or they do not parse. *)
Definition initialState (stored : option (list Doc)) : State :=
  {| params := MkParams ModeAll "" "" "" "" "" 20 "any" false "" "" ByRelevance;
     page := 1; loading := false; error := ""; results := []; numFound := 0;
     favorites := default [] stored;
     availableLangs := []; availableSubjects := []; availablePublishers := [] |}.

(** The page after mounting: the search effect of the first render ran. *)
Definition mount (stored : option (list Doc)) : World :=
  let r := initialState stored in
  searchEffect r
    {| st := r; abortRef := None; debounceTimer := None; timeouts := [];
       inflight := []; next_rid := 0 |}.

(** The worlds that the page can be in. *)
Definition reachable (w : World) : Prop :=
  ∃ stored evs, w = run evs (mount stored).

(** ** [DetailsModal] *)

Definition LANG_MAP : list (string * string) :=
  [("eng", "English"); ("hin", "Hindi"); ("fra", "French"); ("ger", "German");
   ("spa", "Spanish"); ("ita", "Italian"); ("rus", "Russian");
   ("jpn", "Japanese"); ("chi", "Chinese")].

Definition COVER (coverId : option Z) (size : string) : option string :=
  match coverId with
  | Some id =>
      if (id =? 0)%Z then None
      else Some ("https://covers.openlibrary.org/b/id/" +:+ pretty id +:+ "-"
                 +:+ size +:+ ".jpg")
  | None => None
  end.

(** The constants that [DetailsModal] computes before it builds markup. *)
Module Details.
Record t := mk {
  authors : string;
  title : string;
  subtitle : string;
  publishers : list string;
  subjects : list string;
  languages : list string;
  publishYears : list Z;
  coverL : option string;
  olUrl : string
}.
End Details.

(** [DetailsModal({ doc })]: [None] for [return null]; otherwise the
    constants, and the object [doc] as the call leaves it. [sort] works in
    place: when [doc.publish_year] is an array, [publishYears] is that
    very array, sorted. *)
Definition DetailsModal (doc : option Doc) : option (Details.t * Doc) :=
  match doc with
  | None => None
  | Some doc =>
      let authors :=
        Js.or_str (Js.join ", " <$> Doc.author_name doc) "Unknown" in
      let title := default "Untitled" (Doc.title doc) in
      let subtitle :=
        match Doc.subtitle doc with
        | Some sub => if Js.truthy_str sub then " — " +:+ sub else ""
        | None => ""
        end in
      let publishers := take 6 (Js.or_nil (Doc.publisher doc)) in
      let subjects := take 20 (Js.or_nil (Doc.subject doc)) in
      let languages :=
        map (λ c, Js.or_str (Js.prop LANG_MAP c) (Js.toUpperCase c))
          (Js.or_nil (Doc.language doc)) in
      let publishYears :=
        Js.sort (λ a b, (b - a)%Z) (Js.or_nil (Doc.publish_year doc)) in
      let doc' :=
        match Doc.publish_year doc with
        | Some _ =>
            Doc.mk (Doc.key doc) (Doc.title doc) (Doc.subtitle doc)
              (Doc.author_name doc) (Doc.first_publish_year doc)
              (Some publishYears) (Doc.publisher doc) (Doc.edition_count doc)
              (Doc.cover_i doc) (Doc.language doc) (Doc.ebook_count_i doc)
              (Doc.subject doc)
        | None => doc
        end in
      let coverL := COVER (Doc.cover_i doc) "L" in
      let olUrl := "https://openlibrary.org" +:+ Doc.key doc in
      Some (Details.mk authors title subtitle publishers subjects languages
              publishYears coverL olUrl, doc')
  end.

(** ** [ResultCard] *)

Inductive View := ViewGrid | ViewList.

(** A value put into a template or into the markup: a number is shown
    in decimal, a string as it is. *)
Definition show (k : Key) : string :=
  match k with
  | KNum n => pretty n
  | KStr s => s
  end.

(** The constants that [ResultCard] computes before it builds markup,
    and the condition of the badge of the e-book. *)
Module Card.
Record t := mk {
  authors : string;
  title : string;
  subtitle : string;
  firstYear : Key;
  latestYear : Key;
  publishers : string;
  lang : string;
  cover : option string;
  edition : string;
  subjects : list string;
  olUrl : string;
  citation : string;
  ebookBadge : bool
}.
End Card.

(** [ResultCard({ doc, view })]. It reads [doc] and writes nothing. *)
Definition ResultCard (doc : Doc) (view : View) : Card.t :=
  let authors := Js.or_str (Js.join ", " <$> Doc.author_name doc) "Unknown" in
  let title := default "Untitled" (Doc.title doc) in
  let subtitle :=
    match Doc.subtitle doc with
    | Some sub => if Js.truthy_str sub then " — " +:+ sub else ""
    | None => ""
    end in
  let firstYear :=
    match Doc.first_publish_year doc with
    | Some y => if (y =? 0)%Z then KStr "—" else KNum y
    | None => KStr "—"
    end in
  let latestYear :=
    match Js.or_nil (Doc.publish_year doc) with
    | y :: ys => KNum (Js.max_of y ys)
    | [] => firstYear
    end in
  let publishers := Js.join ", " (take 2 (Js.or_nil (Doc.publisher doc))) in
  let lang :=
    Js.join ", "
      (map (λ c, Js.or_str (Js.prop LANG_MAP c) (Js.toUpperCase c))
         (Js.or_nil (Doc.language doc))) in
  let cover :=
    COVER (Doc.cover_i doc) match view with ViewGrid => "L" | ViewList => "M" end in
  let edition :=
    match Doc.edition_count doc with
    | Some n => if (n =? 0)%Z then "" else pretty n +:+ " ed."
    | None => ""
    end in
  let subjects := take 4 (Js.or_nil (Doc.subject doc)) in
  let olKey := Doc.key doc in
  let olUrl := "https://openlibrary.org" +:+ olKey in
  let citation :=
    authors +:+ " (" +:+ show firstYear +:+ "). " +:+ title +:+ ". Open Library." in
  let ebookBadge :=
    match Doc.ebook_count_i doc with
    | Some n => (0 <? n)%Z
    | None => false
    end in
  Card.mk authors title subtitle firstYear latestYear publishers lang cover
    edition subjects olUrl citation ebookBadge.

(** ** Notions used in the statements *)

(** The order that a comparator stands for. *)
Definition cmp_le {A} (cmp : A → A → Z) (a b : A) : Prop := (cmp a b <= 0)%Z.

(** The text that a text key compares, and the year that a year key
    compares. *)
Definition textKey (sortBy : SortBy) (d : Doc) : string :=
  match keyFns sortBy d with KStr s => s | KNum _ => "" end.

Definition yearKey (sortBy : SortBy) (d : Doc) : Z :=
  match keyFns sortBy d with KNum n => n | KStr _ => 0%Z end.

(** Two characters that are one letter, in either case; two strings that
    differ in the case of their letters only. *)
Definition same_letter (c1 c2 : ascii) : bool :=
  let n1 := N_of_ascii c1 in
  let n2 := N_of_ascii c2 in
  ((n1 =? n2) ||
   ((65 <=? n1) && (n1 <=? 90) && (n2 =? n1 + 32)) ||
   ((65 <=? n2) && (n2 <=? 90) && (n1 =? n2 + 32)))%N.

Fixpoint same_ignoring_case (s t : string) : bool :=
  match s, t with
  | EmptyString, EmptyString => true
  | String a s', String b t' => same_letter a b && same_ignoring_case s' t'
  | _, _ => false
  end.

(** The title and the first author of a record, the empty string when
    there is none, and its first publish year, 0 when there is none. *)
Definition title_of (d : Doc) : string := default "" (Doc.title d).

Definition first_author_of (d : Doc) : string :=
  default "" (Doc.author_name d ≫= head).

Definition first_year_of (d : Doc) : Z := default 0%Z (Doc.first_publish_year d).

(** [y] is the latest publish year of [d]: one of its publish years that
    none of them exceeds, or the first publish year of a record that lists
    no publish year. *)
Definition latest_year (d : Doc) (y : Z) : Prop :=
  match Doc.publish_year d with
  | Some (z :: zs) => y ∈ z :: zs ∧ ∀ x, x ∈ z :: zs → (x <= y)%Z
  | _ => y = first_year_of d
  end.

(** A record whose title and first author are text of the ASCII range. *)
Definition ascii_doc (d : Doc) : Prop :=
  is_ascii (title_of d) = true ∧ is_ascii (first_author_of d) = true.

(** A list ascends, or descends, in a key. *)
Definition ascending (E : Engine) (key : Doc → string) (l : list Doc) : Prop :=
  StronglySorted (λ a b, str_lt E (key b) (key a) = false) l.

Definition descending (key : Doc → Z) (l : list Doc) : Prop :=
  StronglySorted (λ a b, (key b <= key a)%Z) l.

(** The inputs [es], made one after the other from the state [s], change
    no search parameter. *)
Fixpoint quiet (es : list Edit) (s : State) : Prop :=
  match es with
  | [] => True
  | e :: es' => params (edit e s) = params s ∧ quiet es' (edit e s)
  end.

(** A record with nothing but a key, and the ways the examples fill it. *)
Definition blank (key : string) : Doc :=
  Doc.mk key None None None None None None None None None None None.

Definition titled (key title : string) : Doc :=
  Doc.mk key (Some title) None None None None None None None None None None.

Definition dated (key : string) (year : option Z) : Doc :=
  Doc.mk key None None None year None None None None None None None.

Definition printed (key : string) (years : list Z) : Doc :=
  Doc.mk key None None None None (Some years) None None None None None None.

(** The keys of the records of a list, in order. *)
Definition keys (l : list Doc) : list string := Doc.key <$> l.

(** Every value of the three facet lists is a language, a subject or a
    publisher of a record of the result list. *)
Definition facets_sound (s : State) : Prop :=
  (∀ v, v ∈ availableLangs s →
     ∃ d, d ∈ results s ∧ v ∈ Js.or_nil (Doc.language d)) ∧
  (∀ v, v ∈ availableSubjects s →
     ∃ d, d ∈ results s ∧ v ∈ Js.or_nil (Doc.subject d)) ∧
  (∀ v, v ∈ availablePublishers s →
     ∃ d, d ∈ results s ∧ v ∈ Js.or_nil (Doc.publisher d)).

(** What [exec] publishes about the records: the result list and the
    three facet lists. *)
Definition published (s : State) :
    list Doc * list string * list string * list string :=
  (results s, availableLangs s, availableSubjects s, availablePublishers s).

(** The list that a successful fetch merges. *)
Definition merged (x : Exec) (docs : option (list Doc)) : list Doc :=
  let filtered := clientFilters (params (render x)) (default [] docs) in
  if append x then results (render x) ++ filtered else filtered.

(** The error that the [try] block of [exec] throws, if it throws. *)
Definition thrown (o : Outcome) : option Js.Error :=
  match o with
  | Rejected e => Some e
  | Resolved status body =>
      if ok status
      then match body with Throws e => Some e | Data _ _ => None end
      else Some (HttpError status)
  end.

(** The numbers of the fetches in flight are below the next number. *)
Definition ids_fresh (w : World) : Prop :=
  Forall (λ r, rid r < next_rid w) (inflight w).

(** Every fetch in flight is the one of the last controller or has been
    aborted. *)
Definition one_current (w : World) : Prop :=
  Forall (λ r, abortRef w = Some (rid r) ∨ aborted r = true) (inflight w).

(** The world in which the timeout set by [loadMore] is about to fire. *)
Definition loadMore_pending (w : World) : World :=
  {| st := setPage (page (st w) + 1) (st w); abortRef := abortRef w;
     debounceTimer := debounceTimer w; timeouts := [];
     inflight := inflight w; next_rid := next_rid w |}.

(** The page after the first answer: one record shown, two found. *)
Definition first_page : World :=
  run [DebounceFire;
       Settle 0 (Resolved 200 (Data (Some [titled "/works/OL1W" "Dune"]) (Some 2%Z)))]
    (mount None).

(** The page after a first answer of two records under relevance, when
    the sort key has just been set to title and the debounce timer of
    that change has not fired yet. *)
Definition sort_key_changed : World :=
  run [DebounceFire;
       Settle 0 (Resolved 200
         (Data (Some [titled "/works/OL2W" "Emma"; titled "/works/OL1W" "Dune"])
            (Some 5%Z)));
       Input (SetSortBy ByTitle)]
    (mount None).

(** The handlers that call [setPage(1)] next to their other setters. *)
Definition sets_page (e : Edit) : bool :=
  match e with
  | SetPerPage _ | QuickSet _ | Reset => true
  | _ => false
  end.

(** The page after one Load more: page number 2, two records shown. *)
Definition second_page : World :=
  run [LoadMore; TimeoutFire;
       Settle 1 (Resolved 200 (Data (Some [titled "/works/OL2W" "Emma"]) (Some 9%Z)))]
    first_page.

(** Two submits in a row: the first fetch is aborted, the second is in
    flight. *)
Definition superseded : World := run [Submit; Submit] (mount None).

(** The message that [catch] stores for a fetch that failed. *)
Definition failure_message (o : Outcome) : string :=
  match o with
  | Resolved status _ => "HTTP " +:+ pretty status
  | Rejected e =>
      if Js.truthy_str (Js.message e) then Js.message e
      else "Something went wrong"
  end.

(** The first fetch of the page is in flight. *)
Definition searching : World := run [DebounceFire] (mount None).

(** ** Further notions used in the statements *)

(** The test that the client-side filters of a render with the
    parameters [p] put to one record. *)
Definition passes (p : Params) (d : Doc) : bool :=
  (if ebookOnly p then (0 <? Js.or_num (Doc.ebook_count_i d) 0)%Z else true) &&
  (if negb (String.eqb (langFilter p) "any")
   then Js.includes (Js.or_nil (Doc.language d)) (langFilter p) else true) &&
  match Js.parseInt (yearMin p) with
  | Some yMin => (yMin <=? Js.or_num (Doc.first_publish_year d) 0)%Z
  | None => true
  end &&
  match Js.parseInt (yearMax p) with
  | Some yMax => (Js.or_num (Doc.first_publish_year d) 99999 <=? yMax)%Z
  | None => true
  end.

(** The fetches in flight whose signal has not been aborted. *)
Definition unaborted (w : World) : list Request :=
  List.filter (λ r, negb (aborted r)) (inflight w).

(** The characters that the serialisation of a query leaves as they are,
    with the two that it writes for the others. *)
Definition url_safe (c : ascii) : bool :=
  let n := N_of_ascii c in
  (((48 <=? n) && (n <=? 57)) || ((65 <=? n) && (n <=? 90)) ||
   ((97 <=? n) && (n <=? 122)) ||
   (n =? 42) || (n =? 45) || (n =? 46) || (n =? 95) ||
   (n =? 43) || (n =? 37))%N.

(** The facet lists hold no value twice and keep to their bounds. *)
Definition facets_tidy (s : State) : Prop :=
  (NoDup (availableLangs s) ∧ (length (availableLangs s) ≤ 20)%nat) ∧
  (NoDup (availableSubjects s) ∧ (length (availableSubjects s) ≤ 50)%nat) ∧
  (NoDup (availablePublishers s) ∧ (length (availablePublishers s) ≤ 30)%nat).

(** A facet list below its bound misses no sampled value of a record of
    the result list. *)
Definition facets_complete (s : State) : Prop :=
  ((length (availableLangs s) < 20)%nat →
   ∀ d v, d ∈ results s → v ∈ Js.or_nil (Doc.language d) →
          v ∈ availableLangs s) ∧
  ((length (availableSubjects s) < 50)%nat →
   ∀ d v, d ∈ results s → v ∈ take 10 (Js.or_nil (Doc.subject d)) →
          v ∈ availableSubjects s) ∧
  ((length (availablePublishers s) < 30)%nat →
   ∀ d v, d ∈ results s → v ∈ take 3 (Js.or_nil (Doc.publisher d)) →
          v ∈ availablePublishers s).

(** While the loading flag is set, the fetch of the last controller is in
    flight and has not been aborted. *)
Definition loading_has_fetch (w : World) : Prop :=
  loading (st w) = true →
  ∃ r, r ∈ inflight w ∧ abortRef w = Some (rid r) ∧ aborted r = false.

#[local] Instance Key_eq_dec : EqDecision Key.
Proof. solve_decision. Defined.

(** The numbers of the fetches in flight differ. *)
Definition rids_NoDup (w : World) : Prop := NoDup (rid <$> inflight w).

(** The numbers of the fetches in flight differ, and are below the next
    number. *)
Definition ids_distinct (w : World) : Prop := ids_fresh w ∧ rids_NoDup w.

(** * Properties *)

(** ** Examples *)

Example parseInt_ex :
  Js.parseInt "1990" = Some 1990%Z ∧ Js.parseInt "" = None ∧
  Js.parseInt " -12px" = Some (-12)%Z ∧ Js.parseInt "abc" = None.
Proof. repeat split; reflexivity. Qed.

(** A no-break space (U+00A0, the bytes 194 and 160) before the digits
    is skipped like a space. *)
Example parseInt_no_break_space :
  Js.parseInt (String (ascii_of_N 194) (String (ascii_of_N 160) " 1990"))
  = Some 1990%Z ∧
  Js.parseInt (String (ascii_of_N 194) "1990") = None.
Proof. split; reflexivity. Qed.

Example buildQuery_dune :
  buildQuery ModeTitle "" "" "dune" "" "" 1 20 =
  "https://openlibrary.org/search.json?title=dune&page=1&limit=20&fields=key%2Ctitle%2Csubtitle%2Cauthor_name%2Cfirst_publish_year%2Cpublish_year%2Cpublisher%2Cedition_count%2Ccover_i%2Clanguage%2Cebook_count_i%2Csubject%2Cratings_average".
Proof. vm_compute. reflexivity. Qed.

(** ** [sort] *)

Section Sort.
Context {A : Type} (cmp : A → A → Z).

Lemma insert_Permutation x l : Js.insert cmp x l ≡ₚ x :: l.
Proof.
  induction l as [|y l IH]; simpl; [done|].
  destruct (cmp x y <=? 0)%Z; [done|].
  rewrite IH. apply Permutation_swap.
Qed.

Lemma sort_Permutation l : Js.sort cmp l ≡ₚ l.
Proof.
  induction l as [|x l IH]; simpl; [done|].
  by rewrite insert_Permutation, IH.
Qed.

Lemma sort_elem_of x l : x ∈ Js.sort cmp l ↔ x ∈ l.
Proof. by rewrite sort_Permutation. Qed.

Lemma sort_length l : length (Js.sort cmp l) = length l.
Proof. by rewrite sort_Permutation. Qed.

(** A comparator that never answers a positive number leaves every
    array as it is: the sort is stable. *)
Lemma sort_all_le l : (∀ a b, cmp_le cmp a b) → Js.sort cmp l = l.
Proof.
  intros Hle. induction l as [|x l IH]; simpl; [done|].
  rewrite IH. destruct l as [|y l]; simpl; [done|].
  specialize (Hle x y). unfold cmp_le in Hle.
  by destruct (Z.leb_spec (cmp x y) 0); [|lia].
Qed.

Hypothesis cmp_total : ∀ a b, cmp_le cmp a b ∨ cmp_le cmp b a.

Lemma insert_Sorted x l :
  Sorted (cmp_le cmp) l → Sorted (cmp_le cmp) (Js.insert cmp x l).
Proof.
  induction 1 as [|y l Hl IH Hy]; simpl.
  - repeat constructor.
  - destruct (Z.leb_spec (cmp x y) 0) as [Hxy|Hxy].
    + repeat constructor; done.
    + constructor; [done|].
      assert (cmp_le cmp y x) as Hyx.
      { destruct (cmp_total x y) as [H|H]; [unfold cmp_le in H; lia|done]. }
      destruct Hy as [|z l Hz]; simpl; [by constructor|].
      destruct (cmp x z <=? 0)%Z; by constructor.
Qed.

Lemma sort_Sorted l : Sorted (cmp_le cmp) (Js.sort cmp l).
Proof.
  induction l as [|x l IH]; simpl; [constructor|].
  by apply insert_Sorted.
Qed.

Lemma sort_StronglySorted `{!Transitive (cmp_le cmp)} l :
  StronglySorted (cmp_le cmp) (Js.sort cmp l).
Proof. apply Sorted_StronglySorted; [done|]. apply sort_Sorted. Qed.
End Sort.

(** ** The order of strings *)

Lemma string_compare_le_trans (a b c : string) :
  String.compare a b ≠ Gt → String.compare b c ≠ Gt → String.compare a c ≠ Gt.
Proof.
  revert b c. induction a as [|x a IH]; intros [|y b] [|z c]; simpl; try done.
  unfold Ascii.compare.
  destruct (N.compare_spec (N_of_ascii x) (N_of_ascii y)) as [Hxy|Hxy|Hxy];
    destruct (N.compare_spec (N_of_ascii y) (N_of_ascii z)) as [Hyz|Hyz|Hyz];
    destruct (N.compare_spec (N_of_ascii x) (N_of_ascii z)) as [Hxz|Hxz|Hxz];
    try done; try lia.
  apply IH.
Qed.

Lemma string_leb_compare (a b : string) :
  String.leb a b = true ↔ String.compare a b ≠ Gt.
Proof. unfold String.leb. destruct (String.compare a b); naive_solver. Qed.

Lemma string_ltb_leb (a b : string) : String.ltb b a = negb (String.leb a b).
Proof.
  unfold String.ltb, String.leb. rewrite (String.compare_antisym a b).
  by destruct (String.compare b a).
Qed.

#[local] Instance string_leb_trans : Transitive (λ a b, String.leb a b = true).
Proof.
  intros a b c. rewrite !string_leb_compare. apply string_compare_le_trans.
Qed.

(** ** The sort keys *)

Lemma comparator_text k a b :
  k = ByTitle ∨ k = ByAuthor →
  cmp_le (comparator k) a b ↔ String.leb (textKey k a) (textKey k b) = true.
Proof.
  intros [-> | ->]; unfold cmp_le, comparator, textKey, key_lt; simpl;
    rewrite !string_ltb_leb;
    match goal with |- context [String.leb ?x ?y] =>
      destruct (String.leb x y) eqn:E1 end; simpl;
    try match goal with |- context [String.leb ?x ?y] =>
      destruct (String.leb x y) eqn:E2 end; simpl; split; try done; lia.
Qed.

Lemma comparator_year k a b :
  k = ByYear ∨ k = ByLatest →
  cmp_le (comparator k) a b ↔ (yearKey k b <= yearKey k a)%Z.
Proof.
  intros [-> | ->]; unfold cmp_le, comparator, yearKey; simpl; lia.
Qed.

Lemma comparator_relevance a b : comparator ByRelevance a b = 0%Z.
Proof. reflexivity. Qed.

Lemma comparator_total k a b :
  cmp_le (comparator k) a b ∨ cmp_le (comparator k) b a.
Proof.
  destruct k.
  - left. unfold cmp_le. by rewrite comparator_relevance.
  - rewrite !(comparator_text ByTitle) by auto. apply String.leb_total.
  - rewrite !(comparator_text ByAuthor) by auto. apply String.leb_total.
  - rewrite !(comparator_year ByYear) by auto. lia.
  - rewrite !(comparator_year ByLatest) by auto. lia.
Qed.

#[local] Instance comparator_trans k : Transitive (cmp_le (comparator k)).
Proof.
  intros a b c. destruct k.
  - unfold cmp_le. by rewrite !comparator_relevance.
  - rewrite !(comparator_text ByTitle) by auto. apply string_leb_trans.
  - rewrite !(comparator_text ByAuthor) by auto. apply string_leb_trans.
  - rewrite !(comparator_year ByYear) by auto. lia.
  - rewrite !(comparator_year ByLatest) by auto. lia.
Qed.

Lemma sortDocs_Permutation k l : sortDocs k l ≡ₚ l.
Proof. apply sort_Permutation. Qed.

Lemma sortDocs_elem_of k l d : d ∈ sortDocs k l ↔ d ∈ l.
Proof. apply sort_elem_of. Qed.

Lemma sortDocs_relevance l : sortDocs ByRelevance l = l.
Proof. apply sort_all_le. intros a b. unfold cmp_le. by rewrite comparator_relevance. Qed.

Lemma sortDocs_sorted k l : StronglySorted (cmp_le (comparator k)) (sortDocs k l).
Proof. apply sort_StronglySorted; [apply comparator_total | apply _]. Qed.

Example sort_title_ex :
  sortDocs ByTitle [titled "k1" "cherry"; titled "k2" "Banana"; titled "k3" "apple"]
  = [titled "k3" "apple"; titled "k2" "Banana"; titled "k1" "cherry"].
Proof. reflexivity. Qed.

Example sort_year_ex :
  sortDocs ByYear [dated "k1" (Some 1980%Z); dated "k2" None; dated "k3" (Some 1995%Z)]
  = [dated "k3" (Some 1995%Z); dated "k1" (Some 1980%Z); dated "k2" None].
Proof. reflexivity. Qed.

(** ** The strings of an engine *)

Lemma string_ltb_irrefl s : String.ltb s s = false.
Proof.
  unfold String.ltb. pose proof (String.compare_antisym s s) as H.
  by destruct (String.compare s s).
Qed.

Lemma string_ltb_trans s t u :
  String.ltb s t = true → String.ltb t u = true → String.ltb s u = true.
Proof.
  unfold String.ltb.
  destruct (String.compare s t) eqn:Hst; try done.
  destruct (String.compare t u) eqn:Htu; try done. intros _ _.
  destruct (String.compare s u) eqn:Hsu; [|done|].
  - apply String.compare_eq_iff in Hsu as ->.
    rewrite String.compare_antisym, Htu in Hst. done.
  - exfalso. apply (string_compare_le_trans u s t).
    + rewrite String.compare_antisym, Hsu. done.
    + by rewrite Hst.
    + rewrite String.compare_antisym, Htu. done.
Qed.

Lemma string_ltb_total s t :
  String.ltb s t = false → String.ltb t s = false → s = t.
Proof.
  unfold String.ltb. rewrite (String.compare_antisym s t).
  destruct (String.compare t s) eqn:Hts; simpl; try done.
  intros _ _. symmetry. by apply String.compare_eq_iff.
Qed.

Lemma N_of_lower_ascii c :
  N_of_ascii (Js.lower_ascii c)
  = (if (65 <=? N_of_ascii c) && (N_of_ascii c <=? 90)
     then N_of_ascii c + 32 else N_of_ascii c)%N.
Proof.
  unfold Js.lower_ascii.
  destruct ((65 <=? N_of_ascii c) && (N_of_ascii c <=? 90))%N eqn:Hc; [|done].
  apply andb_true_iff in Hc as [_ Hc%N.leb_le].
  apply N_ascii_embedding. lia.
Qed.

Lemma N_of_ascii_inj a b : N_of_ascii a = N_of_ascii b → a = b.
Proof.
  intros H. rewrite <- (ascii_N_embedding a), <- (ascii_N_embedding b).
  by rewrite H.
Qed.

(** Two characters have one small letter exactly when they are one
    letter in either case. *)
Lemma lower_ascii_same_letter a b :
  Js.lower_ascii a = Js.lower_ascii b ↔ same_letter a b = true.
Proof.
  unfold same_letter.
  rewrite !orb_true_iff, !andb_true_iff, !N.eqb_eq, !N.leb_le.
  split.
  - intros H%(f_equal N_of_ascii). rewrite !N_of_lower_ascii in H.
    destruct (N.leb_spec 65 (N_of_ascii a)), (N.leb_spec (N_of_ascii a) 90),
      (N.leb_spec 65 (N_of_ascii b)), (N.leb_spec (N_of_ascii b) 90);
      simpl in H; lia.
  - intros H. apply N_of_ascii_inj. rewrite !N_of_lower_ascii.
    destruct (N.leb_spec 65 (N_of_ascii a)), (N.leb_spec (N_of_ascii a) 90),
      (N.leb_spec 65 (N_of_ascii b)), (N.leb_spec (N_of_ascii b) 90);
      simpl; lia.
Qed.

Lemma toLowerCase_same s t :
  Js.toLowerCase s = Js.toLowerCase t ↔ same_ignoring_case s t = true.
Proof.
  revert t. induction s as [|a s IH]; intros [|b t]; simpl; try done.
  rewrite andb_true_iff, <- IH, <- lower_ascii_same_letter.
  split; [by intros [= -> ->]|by intros [-> ->]].
Qed.

Lemma is_ascii_toLowerCase s :
  is_ascii s = true → is_ascii (Js.toLowerCase s) = true.
Proof.
  induction s as [|a s IH]; simpl; [done|].
  rewrite !andb_true_iff, !N.ltb_lt. intros [Ha Hs]. split; [|by apply IH].
  rewrite N_of_lower_ascii.
  destruct ((65 <=? N_of_ascii a) && (N_of_ascii a <=? 90))%N eqn:Hc; [|done].
  apply andb_true_iff in Hc as [_ Hc%N.leb_le]. lia.
Qed.

Lemma lower_latin1_ascii s :
  is_ascii s = true → lower_latin1 s = Js.toLowerCase s.
Proof.
  induction s as [|a s IH]; [done|].
  cbn [is_ascii]. rewrite andb_true_iff, N.ltb_lt. intros [Ha Hs].
  cbn [lower_latin1 Js.toLowerCase]. destruct s as [|b s]; [done|].
  replace (is_latin1_capital a b) with false; [by rewrite IH|].
  unfold is_latin1_capital. symmetry.
  destruct (N.eqb_spec (N_of_ascii a) 195); [lia|done].
Qed.

Lemma or_str_default x : Js.or_str x "" = default "" x.
Proof. by destruct x as [[|]|]. Qed.

Lemma or_num_default x : Js.or_num x 0 = default 0%Z x.
Proof.
  destruct x as [z|]; simpl; [|done]. by destruct (Z.eqb_spec z 0).
Qed.

(** The engine of text of the ASCII range, and one that also knows the
    capital letters of Latin-1. *)
Definition ascii_engine : Engine :=
  MkEngine Js.toLowerCase String.ltb
    string_ltb_irrefl string_ltb_trans string_ltb_total
    (λ _ _, eq_refl) (λ _ _ _ _, eq_refl).

Definition latin1_engine : Engine :=
  MkEngine lower_latin1 String.ltb
    string_ltb_irrefl string_ltb_trans string_ltb_total
    lower_latin1_ascii (λ _ _ _ _, eq_refl).

Lemma sortDocs_ascii_engine k l : sortDocs k l = sortDocsWith ascii_engine k l.
Proof. by destruct k. Qed.

Section EngineOrder.
Context (E : Engine).

Lemma str_le_total s t : str_lt E t s = false ∨ str_lt E s t = false.
Proof.
  destruct (str_lt E t s) eqn:Hts; [|by left].
  destruct (str_lt E s t) eqn:Hst; [|by right].
  pose proof (str_lt_trans E s t s Hst Hts) as H.
  by rewrite str_lt_irrefl in H.
Qed.

Lemma str_le_trans s t u :
  str_lt E t s = false → str_lt E u t = false → str_lt E u s = false.
Proof.
  intros Hts Hut. destruct (str_lt E u s) eqn:Hus; [|done].
  destruct (str_lt E t u) eqn:Htu.
  - pose proof (str_lt_trans E t u s Htu Hus). congruence.
  - pose proof (str_lt_total E t u Htu Hut). congruence.
Qed.

(** The comparison of two text keys. *)
Lemma text_cmp_le x y :
  ((if str_lt E y x then 1 else if str_lt E x y then -1 else 0) <= 0)%Z
  ↔ str_lt E y x = false.
Proof. destruct (str_lt E y x), (str_lt E x y); split; (done || lia). Qed.

Lemma text_cmp_0 x y :
  (if str_lt E y x then 1 else if str_lt E x y then -1 else 0)%Z = 0%Z
  ↔ x = y.
Proof.
  split.
  - destruct (str_lt E y x) eqn:Hyx; [done|].
    destruct (str_lt E x y) eqn:Hxy; [done|]. intros _.
    by apply (str_lt_total E).
  - intros ->. by rewrite str_lt_irrefl.
Qed.

Lemma comparatorWith_title a b :
  comparatorWith E ByTitle a b
  = (if str_lt E (str_lower E (title_of b)) (str_lower E (title_of a)) then 1
     else if str_lt E (str_lower E (title_of a)) (str_lower E (title_of b))
          then -1 else 0)%Z.
Proof.
  unfold comparatorWith, key_ltWith, key_gtWith, keyFnsWith, title_of.
  by rewrite !or_str_default.
Qed.

Lemma comparatorWith_author a b :
  comparatorWith E ByAuthor a b
  = (if str_lt E (str_lower E (first_author_of b)) (str_lower E (first_author_of a))
     then 1
     else if str_lt E (str_lower E (first_author_of a))
                      (str_lower E (first_author_of b))
          then -1 else 0)%Z.
Proof.
  unfold comparatorWith, key_ltWith, key_gtWith, keyFnsWith, first_author_of.
  by rewrite !or_str_default.
Qed.

Lemma comparatorWith_year k a b :
  k = ByYear ∨ k = ByLatest →
  comparatorWith E k a b = (yearKey k b - yearKey k a)%Z.
Proof. by intros [-> | ->]. Qed.

Lemma comparatorWith_relevance a b : comparatorWith E ByRelevance a b = 0%Z.
Proof. reflexivity. Qed.

Lemma comparatorWith_total k a b :
  cmp_le (comparatorWith E k) a b ∨ cmp_le (comparatorWith E k) b a.
Proof.
  unfold cmp_le. destruct k.
  - left. by rewrite comparatorWith_relevance.
  - rewrite !comparatorWith_title, !text_cmp_le. apply str_le_total.
  - rewrite !comparatorWith_author, !text_cmp_le. apply str_le_total.
  - rewrite !(comparatorWith_year ByYear) by auto. lia.
  - rewrite !(comparatorWith_year ByLatest) by auto. lia.
Qed.

#[local] Instance comparatorWith_trans k : Transitive (cmp_le (comparatorWith E k)).
Proof.
  intros a b c. unfold cmp_le. destruct k.
  - by rewrite !comparatorWith_relevance.
  - rewrite !comparatorWith_title, !text_cmp_le. apply str_le_trans.
  - rewrite !comparatorWith_author, !text_cmp_le. apply str_le_trans.
  - rewrite !(comparatorWith_year ByYear) by auto. lia.
  - rewrite !(comparatorWith_year ByLatest) by auto. lia.
Qed.

Lemma sortDocsWith_sorted k l :
  StronglySorted (cmp_le (comparatorWith E k)) (sortDocsWith E k l).
Proof. apply sort_StronglySorted; [apply comparatorWith_total | apply _]. Qed.

(** On records of ASCII text the comparator of every engine is the one
    of [doSearch] above. *)
Lemma comparatorWith_ascii k a b :
  ascii_doc a → ascii_doc b → comparatorWith E k a b = comparator k a b.
Proof.
  intros [Hta Haa] [Htb Hab]. destruct k; try reflexivity.
  - rewrite comparatorWith_title.
    rewrite !str_lower_ascii, !str_lt_ascii by auto using is_ascii_toLowerCase.
    unfold comparator, key_lt, key_gt, keyFns, title_of.
    by rewrite !or_str_default.
  - rewrite comparatorWith_author.
    rewrite !str_lower_ascii, !str_lt_ascii by auto using is_ascii_toLowerCase.
    unfold comparator, key_lt, key_gt, keyFns, first_author_of.
    by rewrite !or_str_default.
Qed.
End EngineOrder.

Lemma StronglySorted_mono {A} (R1 R2 : A → A → Prop) l :
  (∀ a b, R1 a b → R2 a b) → StronglySorted R1 l → StronglySorted R2 l.
Proof.
  intros HR. induction 1 as [|a l Hl IH Ha]; constructor; [done|].
  eapply Forall_impl; [done|]. apply HR.
Qed.

Lemma insert_ext {A} (cmp1 cmp2 : A → A → Z) x l :
  (∀ b, b ∈ l → cmp1 x b = cmp2 x b) → Js.insert cmp1 x l = Js.insert cmp2 x l.
Proof.
  induction l as [|y l IH]; intros H; simpl; [done|].
  rewrite (H y) by left. rewrite IH; [done|]. intros b Hb. apply H. by right.
Qed.

Lemma sort_ext {A} (cmp1 cmp2 : A → A → Z) l :
  (∀ a b, a ∈ l → b ∈ l → cmp1 a b = cmp2 a b) → Js.sort cmp1 l = Js.sort cmp2 l.
Proof.
  induction l as [|x l IH]; intros H; simpl; [done|].
  rewrite <- IH by (intros a b Ha Hb; apply H; by right).
  apply insert_ext. intros b Hb%sort_elem_of. apply H; [by left|by right].
Qed.

Lemma sortDocsWith_ascii E k l :
  Forall ascii_doc l → sortDocsWith E k l = sortDocs k l.
Proof.
  rewrite Forall_forall. intros Hl. apply sort_ext.
  intros a b Ha Hb. apply comparatorWith_ascii; by apply Hl.
Qed.

Lemma max_of_upper (x : Z) l z : z ∈ x :: l → (z <= Js.max_of x l)%Z.
Proof.
  unfold Js.max_of.
  assert (∀ l x, (z <= x)%Z ∨ z ∈ l → (z <= fold_left Z.max l x)%Z) as Hgen.
  { clear. induction l as [|y l IH]; intros x [Hz|Hz]; simpl; try done.
    - by apply elem_of_nil in Hz.
    - apply IH. left. lia.
    - apply IH. apply elem_of_cons in Hz as [->|Hz]; [left; lia|by right]. }
  intros [->|Hz]%elem_of_cons; apply Hgen; [left; lia|by right].
Qed.

Lemma max_of_elem_of (x : Z) l : Js.max_of x l ∈ x :: l.
Proof.
  unfold Js.max_of.
  assert (∀ l x, fold_left Z.max l x = x ∨ fold_left Z.max l x ∈ l) as Hgen.
  { clear. induction l as [|y l IH]; intros x; simpl; [by left|].
    destruct (IH (Z.max x y)) as [H|H]; [|right; by right].
    rewrite H. destruct (Z.max_spec x y) as [[_ ->]|[_ ->]];
      [right; by left|by left]. }
  destruct (Hgen l x) as [->|H]; [by left|by right].
Qed.

Lemma latest_year_key d : latest_year d (yearKey ByLatest d).
Proof.
  unfold latest_year, yearKey, keyFns. destruct (Doc.publish_year d) as [[|z zs]|].
  - unfold first_year_of. apply or_num_default.
  - split; [apply max_of_elem_of|]. intros x. apply max_of_upper.
  - unfold first_year_of. apply or_num_default.
Qed.

Example sort_title_any_engine E :
  sortDocsWith E ByTitle
    [titled "k1" "cherry"; titled "k2" "Banana"; titled "k3" "apple"]
  = [titled "k3" "apple"; titled "k2" "Banana"; titled "k1" "cherry"].
Proof. rewrite sortDocsWith_ascii; [reflexivity|]. by repeat constructor. Qed.

(** With an engine that knows the letters of Latin-1 the titles "Éb" and
    "éa" are compared as "éb" and "éa", and both come after "zebra". *)
Example sort_title_latin1 :
  keys (sortDocsWith latin1_engine ByTitle
          [titled "k1" "Éb"; titled "k2" "éa"; titled "k3" "zebra";
           titled "k4" "Eclair"])
  = ["k4"; "k3"; "k2"; "k1"].
Proof. reflexivity. Qed.

(** C6. For every merged list and the strings of every engine: under the
    sort keys title and author the sorted list ascends in the lower-cased
    title (first author), and the comparator ties two titles (first
    authors) of ASCII text exactly when they differ in the case of their
    letters only; under the sort key year the first publish years descend,
    and under latest the latest publish years do, the latest being the
    greatest of the publish years of a record; under relevance the list is
    returned as it is. In each case the sorted list is a rearrangement of
    the merged list, and on records of ASCII text the sort is [sortDocs]. *)
Theorem sort_order_by_key (E : Engine) (combined : list Doc) :
  ascending E (λ d, str_lower E (title_of d)) (sortDocsWith E ByTitle combined) ∧
  ascending E (λ d, str_lower E (first_author_of d))
    (sortDocsWith E ByAuthor combined) ∧
  (∀ a b, ascii_doc a → ascii_doc b →
     (comparatorWith E ByTitle a b = 0%Z
      ↔ same_ignoring_case (title_of a) (title_of b) = true) ∧
     (comparatorWith E ByAuthor a b = 0%Z
      ↔ same_ignoring_case (first_author_of a) (first_author_of b) = true)) ∧
  descending first_year_of (sortDocsWith E ByYear combined) ∧
  (∃ latest, (∀ d, latest_year d (latest d)) ∧
             descending latest (sortDocsWith E ByLatest combined)) ∧
  sortDocsWith E ByRelevance combined = combined ∧
  (∀ sortBy, sortDocsWith E sortBy combined ≡ₚ combined) ∧
  (Forall ascii_doc combined →
   ∀ sortBy, sortDocs sortBy combined = sortDocsWith E sortBy combined).
Proof.
  split; [|split; [|split; [|split; [|split; [|split; [|split]]]]]].
  - eapply StronglySorted_mono; [|apply (sortDocsWith_sorted E ByTitle)].
    intros a b. unfold cmp_le. by rewrite comparatorWith_title, text_cmp_le.
  - eapply StronglySorted_mono; [|apply (sortDocsWith_sorted E ByAuthor)].
    intros a b. unfold cmp_le. by rewrite comparatorWith_author, text_cmp_le.
  - intros a b [Hta Haa] [Htb Hab]. split.
    + rewrite comparatorWith_title, text_cmp_0, !str_lower_ascii by done.
      apply toLowerCase_same.
    + rewrite comparatorWith_author, text_cmp_0, !str_lower_ascii by done.
      apply toLowerCase_same.
  - eapply StronglySorted_mono; [|apply (sortDocsWith_sorted E ByYear)].
    intros a b. unfold cmp_le. rewrite (comparatorWith_year E ByYear) by auto.
    unfold yearKey, keyFns, first_year_of. rewrite !or_num_default. lia.
  - exists (yearKey ByLatest). split; [apply latest_year_key|].
    eapply StronglySorted_mono; [|apply (sortDocsWith_sorted E ByLatest)].
    intros a b. unfold cmp_le. rewrite (comparatorWith_year E ByLatest) by auto.
    lia.
  - apply sort_all_le. intros a b. unfold cmp_le.
    by rewrite comparatorWith_relevance.
  - intros sortBy. apply sort_Permutation.
  - intros Hascii sortBy. symmetry. by apply sortDocsWith_ascii.
Qed.

Lemma sort_order_by_key_witness :
  let combined := [titled "k1" "Éb"; titled "k2" "éa"; titled "k3" "zebra";
                   titled "k4" "Eclair"] in
  ascending latin1_engine (λ d, str_lower latin1_engine (title_of d))
    (sortDocsWith latin1_engine ByTitle combined) ∧
  sortDocsWith latin1_engine ByRelevance combined = combined ∧
  sortDocsWith latin1_engine ByTitle combined ≡ₚ combined.
Proof.
  intros combined.
  split; [|split].
  - exact (proj1 (sort_order_by_key latin1_engine combined)).
  - exact (proj1 (proj2 (proj2 (proj2 (proj2 (proj2
             (sort_order_by_key latin1_engine combined))))))).
  - exact (proj1 (proj2 (proj2 (proj2 (proj2 (proj2 (proj2
             (sort_order_by_key latin1_engine combined)))))))
             ByTitle).
Defined.

(** ** The year filter *)

Lemma yearFilter_one (yearMin yearMax : string) (d : Doc) :
  yearFilter yearMin yearMax [d] =
  if match Js.parseInt yearMin with
     | Some yMin => (yMin <=? Js.or_num (Doc.first_publish_year d) 0)%Z
     | None => true
     end &&
     match Js.parseInt yearMax with
     | Some yMax => (Js.or_num (Doc.first_publish_year d) 99999 <=? yMax)%Z
     | None => true
     end
  then [d] else [].
Proof.
  unfold yearFilter.
  destruct (Js.parseInt yearMin) as [yMin|], (Js.parseInt yearMax) as [yMax|];
    simpl; repeat (case_match; simpl in * ); try done; congruence.
Qed.

(** C7, as the code has it. A record first published in 1995 passes the
    filter from 1990 to 2000; one first published in 1980 is dropped by
    the lower bound 1990; a record without a first publish year is
    compared as 0 with the lower bound, so every positive lower bound
    drops it, and as 99999 with the upper bound, so every upper bound
    below 99999 drops it as well, whatever the lower bound is and also
    when it is the only bound: the record is kept exactly when the lower
    bound, if it is a number, is at most 0 and the upper bound, if it is
    a number, is at least 99999. *)
Theorem yearFilter_policy (d : Doc) (yearMin yearMax : string) :
  (Doc.first_publish_year d = Some 1995%Z → yearFilter "1990" "2000" [d] = [d]) ∧
  (Doc.first_publish_year d = Some 1980%Z → yearFilter "1990" yearMax [d] = []) ∧
  (Doc.first_publish_year d = None →
     (∀ yMin, Js.parseInt yearMin = Some yMin → (0 < yMin)%Z →
        yearFilter yearMin yearMax [d] = []) ∧
     (∀ yMax, Js.parseInt yearMax = Some yMax → (yMax < 99999)%Z →
        yearFilter yearMin yearMax [d] = []) ∧
     (∀ yMax, Js.parseInt yearMax = Some yMax →
        yearFilter "" yearMax [d] = if (99999 <=? yMax)%Z then [d] else []) ∧
     (yearFilter yearMin yearMax [d] = [d] ∨ yearFilter yearMin yearMax [d] = []) ∧
     (yearFilter yearMin yearMax [d] = [d] ↔
        (∀ yMin, Js.parseInt yearMin = Some yMin → (yMin <= 0)%Z) ∧
        (∀ yMax, Js.parseInt yearMax = Some yMax → (99999 <= yMax)%Z))).
Proof.
  split; [|split].
  - intros Hy. rewrite yearFilter_one, Hy. reflexivity.
  - intros Hy. rewrite yearFilter_one, Hy.
    change (Js.parseInt "1990") with (Some 1990%Z). reflexivity.
  - intros Hnone. split; [|split; [|split; [|split]]].
    + intros yMin HyMin Hpos. rewrite yearFilter_one, HyMin, Hnone. simpl.
      by destruct (Z.leb_spec yMin 0); [lia|].
    + intros yMax HyMax Hlow. rewrite yearFilter_one, HyMax, Hnone. simpl.
      destruct (Z.leb_spec 99999 yMax); [lia|]. by rewrite andb_false_r.
    + intros yMax HyMax. rewrite yearFilter_one, HyMax, Hnone. simpl.
      by destruct (99999 <=? yMax)%Z.
    + rewrite yearFilter_one. case_match; auto.
    + rewrite yearFilter_one, Hnone. simpl.
      destruct (Js.parseInt yearMin) as [yMin|], (Js.parseInt yearMax) as [yMax|];
        simpl;
        repeat match goal with
               | |- context [(?x <=? ?y)%Z] => destruct (Z.leb_spec x y)
               end; simpl; split; try done;
        try (intros _; split; intros ? [= <-]; lia);
        try (intros [H1 H2]; try specialize (H1 _ eq_refl);
             try specialize (H2 _ eq_refl); lia).
Qed.

Lemma yearFilter_policy_witness :
  yearFilter "1990" "2000" [dated "/works/OL1W" (Some 1995%Z)]
    = [dated "/works/OL1W" (Some 1995%Z)] ∧
  yearFilter "1990" "" [dated "/works/OL2W" (Some 1980%Z)] = [] ∧
  yearFilter "1990" "" [dated "/works/OL3W" None] = [] ∧
  yearFilter "" "2000" [dated "/works/OL3W" None] = [] ∧
  yearFilter "0" "2000" [dated "/works/OL3W" None] = [] ∧
  yearFilter "-5" "2000" [dated "/works/OL3W" None] = [] ∧
  yearFilter "abc" "2000" [dated "/works/OL3W" None] = [] ∧
  yearFilter "-5" "99999" [dated "/works/OL3W" None] = [dated "/works/OL3W" None].
Proof.
  repeat apply conj.
  - exact (proj1 (yearFilter_policy (dated "/works/OL1W" (Some 1995%Z)) "" "")
             eq_refl).
  - exact (proj1 (proj2 (yearFilter_policy (dated "/works/OL2W" (Some 1980%Z)) "" ""))
             eq_refl).
  - apply (proj1 (proj2 (proj2 (yearFilter_policy (dated "/works/OL3W" None) "1990" ""))
                    eq_refl) 1990%Z); [reflexivity | lia].
  - apply (proj1 (proj2 (proj2 (proj2 (yearFilter_policy (dated "/works/OL3W" None)
                                         "" "2000")) eq_refl)) 2000%Z);
      [reflexivity | lia].
  - apply (proj1 (proj2 (proj2 (proj2 (yearFilter_policy (dated "/works/OL3W" None)
                                         "0" "2000")) eq_refl)) 2000%Z);
      [reflexivity | lia].
  - apply (proj1 (proj2 (proj2 (proj2 (yearFilter_policy (dated "/works/OL3W" None)
                                         "-5" "2000")) eq_refl)) 2000%Z);
      [reflexivity | lia].
  - apply (proj1 (proj2 (proj2 (proj2 (yearFilter_policy (dated "/works/OL3W" None)
                                         "abc" "2000")) eq_refl)) 2000%Z);
      [reflexivity | lia].
  - apply (proj2 (proj2 (proj2 (proj2 (proj2 (proj2
             (yearFilter_policy (dated "/works/OL3W" None) "-5" "99999")) eq_refl))))).
    split; intros y [= <-]; lia.
Defined.

(** C7 as stated fails: with only the upper bound 2000 set, the record
    without a first publish year is dropped, not kept. *)
Lemma yearFilter_missing_year_dropped :
  yearFilter "" "2000" [dated "/works/OL3W" None] = [] ∧
  yearFilter "" "2000" [dated "/works/OL3W" None] ≠ [dated "/works/OL3W" None].
Proof. split; [reflexivity | discriminate]. Qed.

(** ** The detail projection *)

Example DetailsModal_ex :
  ∃ v, DetailsModal (Some (printed "/works/OL4W" [1999; 2005; 2001]%Z))
       = Some (v, printed "/works/OL4W" [2005; 2001; 1999]%Z) ∧
       Details.publishYears v = [2005; 2001; 1999]%Z ∧
       Details.olUrl v = "https://openlibrary.org/works/OL4W" ∧
       Details.authors v = "Unknown" ∧ Details.title v = "Untitled".
Proof. eexists. repeat split. Qed.

Lemma StronglySorted_weaken {A} (R1 R2 : relation A) (l : list A) :
  (∀ a b, R1 a b → R2 a b) → StronglySorted R1 l → StronglySorted R2 l.
Proof.
  intros Himp. induction 1 as [|x l Hl IH Hx]; constructor; [done|].
  eapply Forall_impl; [exact Hx|]. apply Himp.
Qed.

Lemma sort_desc_StronglySorted (l : list Z) :
  StronglySorted Z.ge (Js.sort (λ a b, (b - a)%Z) l).
Proof.
  apply (StronglySorted_weaken (cmp_le (λ a b, (b - a)%Z))).
  - intros a b. unfold cmp_le. lia.
  - apply sort_StronglySorted.
    + intros a b. unfold cmp_le. lia.
    + intros a b c. unfold cmp_le. lia.
Qed.

(** C9, as the code has it. For every record the projection exists, and
    its publish years are the publish years of the record put in
    descending order: a rearrangement of the list, every duplicate kept. *)
Theorem DetailsModal_publishYears (doc : Doc) :
  ∃ v doc', DetailsModal (Some doc) = Some (v, doc') ∧
    StronglySorted Z.ge (Details.publishYears v) ∧
    Details.publishYears v ≡ₚ Js.or_nil (Doc.publish_year doc).
Proof.
  eexists _, _. split; [reflexivity|]. simpl. split.
  - apply sort_desc_StronglySorted.
  - apply sort_Permutation.
Qed.

(** C9 as stated fails: a year listed twice is shown twice, and the
    [publish_year] list of the record is not what it was. *)
Lemma DetailsModal_keeps_duplicates :
  ∃ v doc', DetailsModal (Some (printed "/works/OL5W" [2000; 2001; 2000]%Z))
            = Some (v, doc') ∧
    Details.publishYears v = [2001; 2000; 2000]%Z ∧
    ¬ NoDup (Details.publishYears v) ∧
    Doc.publish_year doc' ≠ Some [2000; 2001; 2000]%Z.
Proof.
  eexists _, _. split; [reflexivity|]. simpl. split; [reflexivity|]. split.
  - intros Hnd. apply NoDup_cons in Hnd as [_ Hnd].
    apply NoDup_cons in Hnd as [Hin _]. apply Hin. by left.
  - discriminate.
Qed.

(** ** Favourites *)

Lemma isFav_elem_of favs doc : isFav favs doc = true ↔ Doc.key doc ∈ keys favs.
Proof.
  unfold isFav, keys. rewrite existsb_exists, list_elem_of_fmap.
  split.
  - intros (f & Hf & Heq). apply String.eqb_eq in Heq.
    exists f. split; [done|]. by apply list_elem_of_In.
  - intros (f & Heq & Hf). exists f. split; [by apply list_elem_of_In|].
    by apply String.eqb_eq.
Qed.

Lemma isFav_removed favs doc :
  isFav (List.filter (λ f, negb (String.eqb (Doc.key f) (Doc.key doc))) favs) doc
  = false.
Proof.
  apply not_true_iff_false. rewrite isFav_elem_of. unfold keys.
  rewrite list_elem_of_fmap. intros (f & Heq & Hf).
  apply list_elem_of_In, filter_In in Hf as [_ Hf].
  apply negb_true_iff, String.eqb_neq in Hf. congruence.
Qed.

Lemma filter_not_fav favs doc :
  isFav favs doc = false →
  List.filter (λ f, negb (String.eqb (Doc.key f) (Doc.key doc))) favs = favs.
Proof.
  unfold isFav. induction favs as [|f favs IH]; simpl; [done|].
  intros [Hf Hrest]%orb_false_iff. rewrite Hf. simpl. by rewrite IH.
Qed.

Lemma toggleFav_added favs doc :
  isFav favs doc = false → toggleFav (doc :: favs) doc (doc :: favs) = favs.
Proof.
  intros Hfav. unfold toggleFav, isFav. simpl. rewrite String.eqb_refl. simpl.
  by apply filter_not_fav.
Qed.

(** C10. For every world and every record, two clicks on the favourite
    button of that record leave the favourites with the keys they had;
    when the record was no favourite, the list itself is back, and when it
    was, the record now heads the list of the others. Nothing else of the
    world changes. *)
Theorem toggleFav_twice (w : World) (doc : Doc) :
  let favs := favorites (st w) in
  let w2 := run [ToggleFav doc; ToggleFav doc] w in
  (∀ k, k ∈ keys (favorites (st w2)) ↔ k ∈ keys favs) ∧
  favorites (st w2) =
    (if isFav favs doc
     then doc :: List.filter (λ f, negb (String.eqb (Doc.key f) (Doc.key doc))) favs
     else favs) ∧
  w2 = upd_st (setFavorites (favorites (st w2))) w.
Proof.
  cbv zeta.
  assert (favorites (st (run [ToggleFav doc; ToggleFav doc] w)) =
          toggleFav (toggleFav (favorites (st w)) doc (favorites (st w))) doc
            (toggleFav (favorites (st w)) doc (favorites (st w)))) as ->
    by reflexivity.
  split; [|split; [|reflexivity]];
    destruct (isFav (favorites (st w)) doc) eqn:Hfav;
    unfold toggleFav at 2 3; rewrite Hfav, ?toggleFav_added by done;
    try done.
  - unfold toggleFav. rewrite isFav_removed.
    intros k. unfold keys. rewrite fmap_cons, elem_of_cons, !list_elem_of_fmap.
    split.
    + intros [-> | (f & -> & Hf)];
        [by apply list_elem_of_fmap, (isFav_elem_of (favorites (st w)))|].
      apply list_elem_of_In, filter_In in Hf as [Hf _].
      exists f. split; [done|]. by apply list_elem_of_In.
    + intros (f & -> & Hf).
      destruct (decide (Doc.key f = Doc.key doc)) as [Heq|Hne]; [by left|].
      right. exists f. split; [done|].
      apply list_elem_of_In, filter_In. split; [by apply list_elem_of_In|].
      by apply negb_true_iff, String.eqb_neq.
  - unfold toggleFav. by rewrite isFav_removed.
Qed.

(** ** The facet lists *)

Lemma set_add_elem_of (s : list string) (x v : string) :
  v ∈ Js.set_add s x → v ∈ s ∨ v = x.
Proof.
  unfold Js.set_add. destruct (Js.includes s x); [by left|].
  rewrite elem_of_app, list_elem_of_singleton. tauto.
Qed.

Lemma fold_set_add_elem_of (xs s : list string) (v : string) :
  v ∈ fold_left Js.set_add xs s → v ∈ s ∨ v ∈ xs.
Proof.
  revert s. induction xs as [|x xs IH]; simpl; intros s Hv; [by left|].
  apply IH in Hv as [Hv|Hv].
  - apply set_add_elem_of in Hv as [Hv| ->]; [by left|]. right. by left.
  - right. by right.
Qed.

Lemma collect_elem_of (sample : Doc → list string) (combined : list Doc) v :
  v ∈ collect sample combined → ∃ d, d ∈ combined ∧ v ∈ sample d.
Proof.
  unfold collect.
  assert (∀ s, v ∈ fold_left (λ set d, fold_left Js.set_add (sample d) set)
                     combined s →
               v ∈ s ∨ ∃ d, d ∈ combined ∧ v ∈ sample d) as Hgen.
  { induction combined as [|d combined IH]; simpl; intros s Hv; [by left|].
    apply IH in Hv as [Hv|(d' & Hd' & Hv)].
    - apply fold_set_add_elem_of in Hv as [Hv|Hv]; [by left|].
      right. exists d. split; [by left|done].
    - right. exists d'. split; [by right|done]. }
  intros Hv. apply Hgen in Hv as [Hv|Hv]; [|done]. by apply elem_of_nil in Hv.
Qed.

Lemma facets_sound_published s s' :
  published s' = published s → facets_sound s → facets_sound s'.
Proof.
  unfold published, facets_sound. intros [= -> -> -> ->]. done.
Qed.

Lemma facets_sound_merged (k : SortBy) (combined : list Doc) s :
  published s =
    (sortDocs k combined, langsOf combined, subjectsOf combined,
     publishersOf combined) →
  facets_sound s.
Proof.
  unfold published, facets_sound. intros [= -> -> -> ->].
  repeat split; intros v Hv; apply subseteq_take, collect_elem_of in Hv;
    destruct Hv as (d & Hd & Hv); exists d; rewrite sortDocs_elem_of;
    (split; [done|]); [done| |]; by eapply subseteq_take.
Qed.

Lemma published_edit e s : published (edit e s) = published s.
Proof. destruct s as [[] ?????????], e as [| | | | | | | | | | | |[]|]; reflexivity. Qed.

Lemma exec_settle_thrown x o s e :
  thrown o = Some e → exec_settle x o s = setLoading false (exec_catch e s).
Proof.
  unfold exec_settle, exec_try, thrown.
  destruct o as [status body|e']; [destruct (ok status), body|];
    simpl; congruence.
Qed.

Lemma exec_settle_data x status docs total s :
  ok status = true →
  exec_settle x (Resolved status (Data docs total)) s =
  let sorted := sortDocs (sortBy (params (render x))) (merged x docs) in
  setLoading false
    (setNumFound (default (Z.of_nat (length sorted)) total)
       (setResults sorted
          (setAvailablePublishers (publishersOf (merged x docs))
             (setAvailableSubjects (subjectsOf (merged x docs))
                (setAvailableLangs (langsOf (merged x docs)) s))))).
Proof. intros Hok. unfold exec_settle, exec_try. by rewrite Hok. Qed.

Lemma thrown_None o :
  thrown o = None →
  ∃ status docs total, o = Resolved status (Data docs total) ∧ ok status = true.
Proof.
  unfold thrown.
  destruct o as [status body|e]; [destruct (ok status) eqn:Hok, body|];
    try done.
  intros _. eexists _, _, _. split; [reflexivity|done].
Qed.

Lemma published_exec_catch e s : published (exec_catch e s) = published s.
Proof. unfold exec_catch. by case_match. Qed.

(** The settling of a fetch either publishes nothing, or publishes a
    merged list, sorted, with the facets of that list. *)
Lemma published_exec_settle x o s :
  published (exec_settle x o s) = published s ∨
  ∃ k combined,
    published (exec_settle x o s) =
      (sortDocs k combined, langsOf combined, subjectsOf combined,
       publishersOf combined).
Proof.
  destruct (thrown o) as [e|] eqn:Ho.
  - left. rewrite (exec_settle_thrown _ _ _ _ Ho). apply published_exec_catch.
  - right. apply thrown_None in Ho as (status & docs & total & -> & Hok).
    rewrite exec_settle_data by done. by eexists _, _.
Qed.

Lemma published_exec_start x w :
  published (st (exec_start x w)) = published (st w).
Proof. reflexivity. Qed.

Lemma published_setPage v s : published (setPage v s) = published s.
Proof. reflexivity. Qed.

Lemma facets_sound_step ev w :
  facets_sound (st w) → facets_sound (st (step ev w)).
Proof.
  intros Hw. destruct ev; simpl; unfold onSubmit, loadMore, onPrev;
    repeat (case_match; simpl); try done.
  - eapply facets_sound_published; [|exact Hw].
    by rewrite published_edit.
  - eapply facets_sound_published; [|exact Hw].
    by rewrite published_setPage, published_edit.
  - destruct (published_exec_settle (awaiting r) o (st w))
      as [Hp|(k & combined & Hp)].
    + by eapply facets_sound_published.
    + by eapply facets_sound_merged.
Qed.

Lemma facets_sound_run evs w :
  facets_sound (st w) → facets_sound (st (run evs w)).
Proof.
  revert w. induction evs as [|ev evs IH]; intros w Hw; [done|].
  apply IH. by apply facets_sound_step.
Qed.

(** C8. In every state that the page reaches, each value of the three
    facet lists is a language, a subject or a publisher of a record of
    the current result list. *)
Theorem facets_from_results (stored : option (list Doc)) (evs : list Event) :
  facets_sound (st (run evs (mount stored))).
Proof.
  apply facets_sound_run. repeat split; intros v Hv; by apply elem_of_nil in Hv.
Qed.

(** ** The address of a fetch *)

(** The entry [page] of the address is the page number of the render
    that made [exec]. *)
Lemma buildQueryUrl_page mode query author title isbn subject page perPage :
  Url.get "page"
    (Url.searchParams
       (buildQueryUrl mode query author title isbn subject page perPage))
  = if (page =? 0)%Z then None else Some (pretty page).
Proof.
  unfold buildQueryUrl, when.
  destruct mode, (Js.truthy_str query), (Js.truthy_str title),
    (Js.truthy_str author), (Js.truthy_str isbn), (Js.truthy_str subject),
    (page =? 0)%Z, (perPage =? 0)%Z; reflexivity.
Qed.

(** ** Fetches in flight *)

Lemma Forall_abort (P : nat → Prop) id rs :
  Forall (λ r, P (rid r)) rs → Forall (λ r, P (rid r)) (abort id rs).
Proof.
  unfold abort. intros H. apply Forall_fmap. eapply Forall_impl; [exact H|].
  intros r Hr. simpl. by destruct (Nat.eqb (rid r) id).
Qed.

Lemma ids_fresh_exec_start x w : ids_fresh w → ids_fresh (exec_start x w).
Proof.
  unfold ids_fresh, exec_start. simpl. intros H. apply Forall_app. split.
  - destruct (abortRef w); [apply (Forall_abort (λ n, n < S (next_rid w)))|];
      (eapply Forall_impl; [exact H|]); simpl; lia.
  - repeat constructor.
Qed.

Lemma ids_fresh_step ev w : ids_fresh w → ids_fresh (step ev w).
Proof.
  intros Hw. destruct ev; simpl;
    unfold searchEffect, onSubmit, loadMore, onPrev, doSearch;
    repeat (case_match; simpl); try done;
    try (by apply ids_fresh_exec_start).
  all: unfold ids_fresh in *; simpl; apply Forall_forall; intros q Hq.
  all: apply list_elem_of_In, filter_In in Hq as [Hq _].
  all: apply list_elem_of_In in Hq; eapply Forall_forall in Hw; eauto.
Qed.

Lemma ids_fresh_reachable w : reachable w → ids_fresh w.
Proof.
  intros (stored & evs & ->). generalize (mount stored) (Forall_nil_2 _ : ids_fresh (mount stored)).
  induction evs as [|ev evs IH]; intros w Hw; [done|].
  apply IH. by apply ids_fresh_step.
Qed.

Lemma find_issued rs id u x :
  Forall (λ r, rid r < id) rs →
  List.find (λ r, Nat.eqb (rid r) id) (rs ++ [MkRequest id u x false])
  = Some (MkRequest id u x false).
Proof.
  induction 1 as [|r rs Hr _ IH]; simpl.
  - by rewrite Nat.eqb_refl.
  - destruct (Nat.eqb_spec (rid r) id); [lia|done].
Qed.

(** After [exec] has started, its fetch is the one that the next number
    names. *)
Lemma find_exec_start x w :
  ids_fresh w →
  List.find (λ r, Nat.eqb (rid r) (next_rid w)) (inflight (exec_start x w))
  = last (inflight (exec_start x w)).
Proof.
  intros Hw. unfold exec_start. simpl. rewrite last_snoc.
  apply find_issued. destruct (abortRef w); [|done].
  by apply (Forall_abort (λ n, n < next_rid w)).
Qed.

Lemma step_Settle id o w r :
  List.find (λ r, Nat.eqb (rid r) id) (inflight w) = Some r →
  st (step (Settle id o) w) =
  exec_settle (awaiting r) (if aborted r then Rejected AbortError else o) (st w).
Proof. intros Hr. simpl. by rewrite Hr. Qed.

Lemma step_LoadMore w :
  loading (st w) = false →
  (Z.of_nat (length (results (st w))) < numFound (st w))%Z →
  step LoadMore w =
  setTimeout0 (st w) true (upd_st (setPage (page (st w) + 1)) w).
Proof.
  intros Hl Hn. simpl. unfold loadMore. rewrite Hl. simpl.
  by destruct (Z.leb_spec (numFound (st w)) (Z.of_nat (length (results (st w)))));
    [lia|].
Qed.

Lemma run_LoadMore_TimeoutFire w :
  loading (st w) = false →
  (Z.of_nat (length (results (st w))) < numFound (st w))%Z →
  timeouts w = [] →
  run [LoadMore; TimeoutFire] w =
  exec_start (MkExec (st w) true) (loadMore_pending w).
Proof.
  intros Hl Hn Ht. unfold run. cbn [fold_left].
  rewrite step_LoadMore by done. unfold setTimeout0, upd_st. simpl.
  by rewrite Ht.
Qed.

(** ** Load more *)

(** C2, what the code does. When the button Load more is enabled and no
    other timeout is pending, a click and the firing of its timeout leave
    the page number incremented, and issue a fetch that appends; the
    address of that fetch carries the page number from before the click,
    not the incremented one. *)
Theorem loadMore_fetches_stale_page (w : World) :
  loading (st w) = false →
  (Z.of_nat (length (results (st w))) < numFound (st w))%Z →
  timeouts w = [] →
  page (st w) ≠ 0%Z →
  let w' := run [LoadMore; TimeoutFire] w in
  page (st w') = (page (st w) + 1)%Z ∧
  ∃ r, last (inflight w') = Some r ∧
       rid r = next_rid w ∧ aborted r = false ∧
       append (awaiting r) = true ∧
       Url.get "page" (Url.searchParams (url r)) = Some (pretty (page (st w))) ∧
       Url.get "page" (Url.searchParams (url r)) ≠ Some (pretty (page (st w'))).
Proof.
  intros Hl Hn Ht Hp. cbv zeta. rewrite run_LoadMore_TimeoutFire by done.
  split; [reflexivity|]. unfold exec_start. cbn [inflight st page setPage
    setLoading setError loadMore_pending next_rid render params].
  eexists. rewrite last_snoc. split; [reflexivity|]. cbn [rid aborted awaiting
    append url]. rewrite buildQueryUrl_page.
  destruct (Z.eqb_spec (page (st w)) 0); [done|].
  repeat split; try done.
  intros [= Heq]. apply (inj pretty) in Heq. lia.
Qed.

Lemma loadMore_fetches_stale_page_witness :
  page (st first_page) = 1%Z ∧
  let w' := run [LoadMore; TimeoutFire] first_page in
  page (st w') = (page (st first_page) + 1)%Z ∧
  ∃ r, last (inflight w') = Some r ∧
       rid r = next_rid first_page ∧ aborted r = false ∧
       append (awaiting r) = true ∧
       Url.get "page" (Url.searchParams (url r))
       = Some (pretty (page (st first_page))) ∧
       Url.get "page" (Url.searchParams (url r)) ≠ Some (pretty (page (st w'))).
Proof.
  split; [reflexivity|].
  apply (loadMore_fetches_stale_page first_page);
    [reflexivity | reflexivity | reflexivity | discriminate].
Defined.

(** The address of the fetch that Load more issues from the first page. *)
Example loadMore_address :
  Url.toString <$> (url <$> last (inflight (run [LoadMore; TimeoutFire] first_page)))
  = Some "https://openlibrary.org/search.json?page=1&limit=20&fields=key%2Ctitle%2Csubtitle%2Cauthor_name%2Cfirst_publish_year%2Cpublish_year%2Cpublisher%2Cedition_count%2Ccover_i%2Clanguage%2Cebook_count_i%2Csubject%2Cratings_average".
Proof. vm_compute. reflexivity. Qed.

(** C4, as the code has it. When the button Load more is enabled and no
    other timeout is pending, then after the click, the timeout and a
    successful answer, the result list is the merged list (the records
    from before the click, then the filtered records of the answer) put
    in the order of the sort key: a rearrangement of the merged list, and
    the merged list itself when the sort key is relevance. *)
Theorem loadMore_merges (w : World) (status : Z) (docs : option (list Doc))
    (total : option Z) :
  reachable w →
  loading (st w) = false →
  (Z.of_nat (length (results (st w))) < numFound (st w))%Z →
  timeouts w = [] →
  ok status = true →
  let old := results (st w) in
  let filtered := clientFilters (params (st w)) (default [] docs) in
  let w' := run [LoadMore; TimeoutFire;
                 Settle (next_rid w) (Resolved status (Data docs total))] w in
  results (st w') = sortDocs (sortBy (params (st w))) (old ++ filtered) ∧
  results (st w') ≡ₚ old ++ filtered ∧
  (sortBy (params (st w)) = ByRelevance → results (st w') = old ++ filtered).
Proof.
  intros Hw Hl Hn Ht Hok. cbv zeta.
  assert (results (st (run [LoadMore; TimeoutFire;
            Settle (next_rid w) (Resolved status (Data docs total))] w))
          = sortDocs (sortBy (params (st w)))
              (results (st w) ++ clientFilters (params (st w)) (default [] docs)))
    as ->.
  { change (run [LoadMore; TimeoutFire; Settle (next_rid w) ?o] w)
      with (step (Settle (next_rid w) o) (run [LoadMore; TimeoutFire] w)).
    rewrite run_LoadMore_TimeoutFire by done.
    pose proof (find_exec_start (MkExec (st w) true) (loadMore_pending w)
                  (ids_fresh_reachable w Hw)) as Hfind.
    cbn [next_rid loadMore_pending] in Hfind.
    erewrite step_Settle; [|rewrite Hfind; unfold exec_start; simpl;
                            apply last_snoc].
    cbn [aborted awaiting]. by rewrite exec_settle_data. }
  split; [done|]. split; [apply sortDocs_Permutation|].
  intros ->. apply sortDocs_relevance.
Qed.

Lemma loadMore_merges_witness :
  results (st (run [LoadMore; TimeoutFire;
                    Settle 1 (Resolved 200
                      (Data (Some [titled "/works/OL2W" "Emma"]) (Some 2%Z)))]
                 first_page))
  = [titled "/works/OL1W" "Dune"; titled "/works/OL2W" "Emma"].
Proof.
  pose proof (loadMore_merges first_page 200
                (Some [titled "/works/OL2W" "Emma"]) (Some 2%Z)) as H.
  apply H; try reflexivity.
  eexists None, _. reflexivity.
Defined.

(** C4 as stated fails: Load more under the sort key title puts the new
    record first and the two records shown before in the other order. *)
Lemma loadMore_reorders :
  let w' := run [LoadMore; TimeoutFire;
                 Settle 1 (Resolved 200
                   (Data (Some [titled "/works/OL3W" "Ada"]) (Some 5%Z)))]
              sort_key_changed in
  results (st sort_key_changed)
  = [titled "/works/OL2W" "Emma"; titled "/works/OL1W" "Dune"] ∧
  results (st w')
  = [titled "/works/OL3W" "Ada"; titled "/works/OL1W" "Dune";
     titled "/works/OL2W" "Emma"] ∧
  take 2 (results (st w')) ≠ results (st sort_key_changed).
Proof. split; [reflexivity|]. split; [reflexivity|discriminate]. Qed.

(** ** A change of a search input *)

Lemma page_edit e s : page (edit e s) = if sets_page e then 1%Z else page s.
Proof. destruct s as [[] ?????????], e as [| | | | | | | | | | | |[]|]; reflexivity. Qed.

Lemma run_Input_DebounceFire e w :
  params (edit e (st w)) ≠ params (st w) →
  run [Input e; DebounceFire] w =
  exec_start (MkExec (edit e (st w)) false)
    {| st := setPage 1 (edit e (st w)); abortRef := abortRef w;
       debounceTimer := None; timeouts := timeouts w;
       inflight := inflight w; next_rid := next_rid w |}.
Proof.
  intros Hne. unfold run. cbn [fold_left]. cbn [step].
  destruct (decide (params (edit e (st w)) = params (st w))); [done|].
  reflexivity.
Qed.

(** C3, what the code does. A change of a search input that changes the
    dependencies of the search effect sets the page number to 1, and the
    debounced fetch replaces the result list; the address of that fetch
    carries the page number of the render that ran the effect: 1 after
    the handlers that reset the page themselves, and otherwise the page
    number from before the change. *)
Theorem edit_fetches_render_page (w : World) (e : Edit) :
  params (edit e (st w)) ≠ params (st w) →
  page (st w) ≠ 0%Z →
  let w' := run [Input e; DebounceFire] w in
  page (st w') = 1%Z ∧
  ∃ r, last (inflight w') = Some r ∧
       rid r = next_rid w ∧ aborted r = false ∧
       append (awaiting r) = false ∧
       Url.get "page" (Url.searchParams (url r))
       = Some (pretty (if sets_page e then 1%Z else page (st w))).
Proof.
  intros Hne Hp. cbv zeta. rewrite run_Input_DebounceFire by done.
  split; [reflexivity|]. unfold exec_start. cbn [inflight next_rid render params].
  eexists. rewrite last_snoc. split; [reflexivity|].
  cbn [rid aborted awaiting append url]. rewrite buildQueryUrl_page, page_edit.
  repeat split. destruct (sets_page e); [done|].
  by destruct (Z.eqb_spec (page (st w)) 0).
Qed.

Lemma edit_fetches_render_page_witness :
  page (st second_page) = 2%Z ∧
  let w' := run [Input (SetQuery "dune"); DebounceFire] second_page in
  page (st w') = 1%Z ∧
  ∃ r, last (inflight w') = Some r ∧
       rid r = next_rid second_page ∧ aborted r = false ∧
       append (awaiting r) = false ∧
       Url.get "page" (Url.searchParams (url r))
       = Some (pretty (if sets_page (SetQuery "dune") then 1%Z
                       else page (st second_page))).
Proof.
  split; [reflexivity|].
  apply (edit_fetches_render_page second_page (SetQuery "dune")); discriminate.
Defined.

(** The address of the fetch that the new query issues from page 2. *)
Example edit_address :
  Url.toString <$>
    (url <$> last (inflight (run [Input (SetQuery "dune"); DebounceFire] second_page)))
  = Some "https://openlibrary.org/search.json?q=dune&page=2&limit=20&fields=key%2Ctitle%2Csubtitle%2Cauthor_name%2Cfirst_publish_year%2Cpublish_year%2Cpublisher%2Cedition_count%2Ccover_i%2Clanguage%2Cebook_count_i%2Csubject%2Cratings_average".
Proof. vm_compute. reflexivity. Qed.

(** ** The settling of a fetch *)

Lemma one_current_exec_start x w : one_current w → one_current (exec_start x w).
Proof.
  unfold one_current, exec_start. simpl. intros H. apply Forall_app. split.
  - destruct (abortRef w) as [id|]; [unfold abort; apply Forall_fmap|];
      (eapply Forall_impl; [exact H|]); simpl; intros r [Hr|Hr]; right;
      try done.
    + injection Hr as ->. by rewrite Nat.eqb_refl.
    + by destruct (Nat.eqb (rid r) id).
  - repeat constructor.
Qed.

Lemma one_current_step ev w : one_current w → one_current (step ev w).
Proof.
  intros Hw. destruct ev; simpl;
    unfold searchEffect, onSubmit, loadMore, onPrev, doSearch;
    repeat (case_match; simpl); try done;
    try (by apply one_current_exec_start).
  all: unfold one_current in *; simpl; apply Forall_forall; intros q Hq.
  all: apply list_elem_of_In, filter_In in Hq as [Hq _].
  all: apply list_elem_of_In in Hq; eapply Forall_forall in Hw; eauto.
Qed.

Lemma one_current_reachable w : reachable w → one_current w.
Proof.
  intros (stored & evs & ->).
  generalize (mount stored) (Forall_nil_2 _ : one_current (mount stored)).
  induction evs as [|ev evs IH]; intros w Hw; [done|].
  apply IH. by apply one_current_step.
Qed.

Lemma find_Some_rid id rs r :
  List.find (λ r, Nat.eqb (rid r) id) rs = Some r → rid r = id ∧ r ∈ rs.
Proof.
  intros [Hin Heq]%find_some. split; [by apply Nat.eqb_eq|].
  by apply list_elem_of_In.
Qed.

(** A fetch that a later one superseded has been aborted. *)
Lemma superseded_aborted w id r :
  reachable w →
  List.find (λ r, Nat.eqb (rid r) id) (inflight w) = Some r →
  abortRef w ≠ Some id →
  aborted r = true.
Proof.
  intros Hw [<- Hin]%find_Some_rid Hne.
  apply one_current_reachable in Hw. eapply Forall_forall in Hw; [|exact Hin].
  by destruct Hw.
Qed.

Lemma aborted_settle w id r o :
  List.find (λ r, Nat.eqb (rid r) id) (inflight w) = Some r →
  aborted r = true →
  st (step (Settle id o) w) = setLoading false (st w).
Proof.
  intros Hr Ha. rewrite (step_Settle _ _ _ _ Hr), Ha.
  by rewrite (exec_settle_thrown _ _ _ AbortError).
Qed.

(** C1, what the code does. When a fetch settles that is in flight under
    a controller older than the last one (a later fetch superseded it, and
    so aborted it), then whatever the network answers, the result list,
    the facets, the total and the error stay as they are, and the loading
    flag is cleared. *)
Theorem superseded_settle_clears_loading (w : World) (id : nat) (r : Request)
    (o : Outcome) :
  reachable w →
  List.find (λ r, Nat.eqb (rid r) id) (inflight w) = Some r →
  abortRef w ≠ Some id →
  let w' := step (Settle id o) w in
  published (st w') = published (st w) ∧
  numFound (st w') = numFound (st w) ∧
  error (st w') = error (st w) ∧
  loading (st w') = false ∧
  st w' = setLoading false (st w).
Proof.
  intros Hw Hr Hne. cbv zeta.
  rewrite (aborted_settle w id r o Hr (superseded_aborted w id r Hw Hr Hne)).
  repeat split.
Qed.

Lemma superseded_settle_clears_loading_witness :
  (aborted <$> inflight superseded = [true; false] ∧
   rid <$> inflight superseded = [0; 1] ∧
   abortRef superseded = Some 1 ∧
   loading (st superseded) = true) ∧
  let o := Resolved 200 (Data (Some [titled "/works/OL1W" "Dune"]) (Some 1%Z)) in
  let w' := step (Settle 0 o) superseded in
  published (st w') = published (st superseded) ∧
  numFound (st w') = numFound (st superseded) ∧
  error (st w') = error (st superseded) ∧
  loading (st w') = false ∧
  st w' = setLoading false (st superseded).
Proof.
  split; [repeat split|].
  eapply (superseded_settle_clears_loading superseded 0).
  - by exists None, [Submit; Submit].
  - reflexivity.
  - discriminate.
Defined.

Lemma or_str_message m :
  Js.or_str (Some m) "Something went wrong" =
  if Js.truthy_str m then m else "Something went wrong".
Proof. by destruct m. Qed.

(** C5. When a fetch that was not aborted settles with a status outside
    200..299, or is rejected with an error that is no [AbortError], the
    error state holds a message that is not empty (the status after
    "HTTP", or the message of the error, or "Something went wrong"), the
    loading flag is cleared, and the result list, the facets and the total
    are what they were. *)
Theorem failed_fetch_keeps_results (w : World) (id : nat) (r : Request)
    (o : Outcome) :
  List.find (λ r, Nat.eqb (rid r) id) (inflight w) = Some r →
  aborted r = false →
  match o with
  | Resolved status _ => ok status = false
  | Rejected e => Js.name e ≠ "AbortError"
  end →
  let w' := step (Settle id o) w in
  error (st w') = failure_message o ∧
  error (st w') ≠ "" ∧
  results (st w') = results (st w) ∧
  published (st w') = published (st w) ∧
  numFound (st w') = numFound (st w) ∧
  loading (st w') = false.
Proof.
  intros Hr Ha Ho. cbv zeta. rewrite (step_Settle _ _ _ _ Hr), Ha.
  assert (∃ e, thrown o = Some e ∧ Js.name e ≠ "AbortError" ∧
               Js.or_str (Some (Js.message e)) "Something went wrong"
               = failure_message o) as (e & He & Hname & Hmsg).
  { destruct o as [status body|e].
    - exists (HttpError status). unfold thrown. rewrite Ho.
      split; [done|]. split; [done|]. reflexivity.
    - exists e. split; [done|]. split; [done|]. apply or_str_message. }
  rewrite (exec_settle_thrown _ _ _ _ He). unfold exec_catch.
  apply String.eqb_neq in Hname. rewrite Hname. cbn [negb]. rewrite Hmsg.
  repeat split.
  destruct o as [status body|e']; simpl; [done|].
  by destruct (Js.message e').
Qed.

Lemma failed_fetch_keeps_results_witness :
  (let o := Resolved 500 (Data None None) in
   let w' := step (Settle 0 o) searching in
   error (st w') = failure_message o ∧
   error (st w') ≠ "" ∧
   results (st w') = results (st searching) ∧
   published (st w') = published (st searching) ∧
   numFound (st w') = numFound (st searching) ∧
   loading (st w') = false) ∧
  (let o := Rejected {| Js.name := "TypeError"; Js.message := "Failed to fetch" |} in
   let w' := step (Settle 0 o) searching in
   error (st w') = failure_message o ∧
   error (st w') ≠ "" ∧
   results (st w') = results (st searching) ∧
   published (st w') = published (st searching) ∧
   numFound (st w') = numFound (st searching) ∧
   loading (st w') = false).
Proof.
  split.
  - eapply (failed_fetch_keeps_results searching 0); reflexivity.
  - eapply (failed_fetch_keeps_results searching 0);
      [reflexivity | reflexivity | discriminate].
Defined.

(** The two messages of that witness, as texts. *)
Example failure_message_ex :
  failure_message (Resolved 500 (Data None None)) = "HTTP 500" ∧
  failure_message
    (Rejected {| Js.name := "TypeError"; Js.message := "Failed to fetch" |})
  = "Failed to fetch" ∧
  failure_message (Rejected {| Js.name := "TypeError"; Js.message := "" |})
  = "Something went wrong".
Proof. vm_compute. repeat split. Qed.

(** * Further properties *)

(** ** The sort, once more *)

Section SortMore.
Context {A : Type} (cmp : A → A → Z).

(** An array that is in the order of the comparator is left as it is. *)
Lemma sort_Sorted_id l : Sorted (cmp_le cmp) l → Js.sort cmp l = l.
Proof.
  induction 1 as [|x l Hl IH Hx]; simpl; [done|].
  rewrite IH. destruct Hx as [|y l Hxy]; simpl; [done|].
  unfold cmp_le in Hxy. by destruct (Z.leb_spec (cmp x y) 0); [|lia].
Qed.

(** The elements of a class that the comparator does not tell apart keep
    the order they had. *)
Lemma sort_stable (P : A → bool) l :
  (∀ x y, P x = true → P y = true → cmp_le cmp x y) →
  List.filter P (Js.sort cmp l) = List.filter P l.
Proof.
  intros HP.
  assert (∀ x l, List.filter P (Js.insert cmp x l) = List.filter P (x :: l))
    as Hins.
  { intros x l'. induction l' as [|y l' IH]; [done|]. cbn [Js.insert].
    destruct (Z.leb_spec (cmp x y) 0) as [Hxy|Hxy]; [done|].
    cbn [List.filter] in *. rewrite IH.
    destruct (P x) eqn:Hx, (P y) eqn:Hy; try done.
    specialize (HP x y Hx Hy). unfold cmp_le in HP. lia. }
  induction l as [|x l IH]; [done|]. cbn [Js.sort foldr].
  rewrite Hins. cbn [List.filter]. fold (Js.sort cmp l). by rewrite IH.
Qed.
End SortMore.

Lemma comparator_same_key k a b :
  keyFns k a = keyFns k b → comparator k a b = 0%Z.
Proof.
  unfold comparator, key_lt. intros ->.
  destruct k; cbv zeta;
    match goal with |- context [keyFns ?k b] => destruct (keyFns k b) end;
    simpl; rewrite ?string_ltb_irrefl, ?Z.ltb_irrefl; try done; lia.
Qed.

(** X1. The sort of the result list is stable: under every sort key, the
    records that share a value of the key stand in the sorted list in the
    order they had in the merged list. *)
Theorem sortDocs_stable (k : SortBy) (v : Key) (combined : list Doc) :
  List.filter (λ d, bool_decide (keyFns k d = v)) (sortDocs k combined)
  = List.filter (λ d, bool_decide (keyFns k d = v)) combined.
Proof.
  apply sort_stable. intros x y Hx%bool_decide_eq_true Hy%bool_decide_eq_true.
  unfold cmp_le. rewrite comparator_same_key; [done|congruence].
Qed.

(** X2. Sorting a sorted list again under the same key changes nothing:
    a list that [doSearch] has published is a fixed point of its sort. *)
Theorem sortDocs_idempotent (k : SortBy) (combined : list Doc) :
  sortDocs k (sortDocs k combined) = sortDocs k combined.
Proof.
  apply sort_Sorted_id, sort_Sorted, comparator_total.
Qed.

(** ** The client-side filters *)

Lemma filter_filter_andb {A} (f g : A → bool) (l : list A) :
  List.filter f (List.filter g l) = List.filter (λ x, g x && f x) l.
Proof.
  induction l as [|x l IH]; [done|]. simpl.
  destruct (g x); simpl; [destruct (f x)|]; by rewrite IH.
Qed.

Lemma filter_true {A} (l : list A) : List.filter (λ _, true) l = l.
Proof. induction l as [|x l IH]; [done|]. simpl. by rewrite IH. Qed.

Lemma includes_elem_of (l : list string) (x : string) :
  Js.includes l x = true ↔ x ∈ l.
Proof.
  unfold Js.includes. rewrite existsb_exists. split.
  - intros (y & Hy & ->%String.eqb_eq). by apply list_elem_of_In.
  - intros Hx. exists x. split; [by apply list_elem_of_In|apply String.eqb_refl].
Qed.

Lemma clientFilters_filter (p : Params) (docs : list Doc) :
  clientFilters p docs = List.filter (passes p) docs.
Proof.
  unfold clientFilters, yearFilter, languageFilter, ebookFilter, when.
  transitivity
    (List.filter (λ d, match Js.parseInt (yearMax p) with
                       | Some yMax =>
                           (Js.or_num (Doc.first_publish_year d) 99999 <=? yMax)%Z
                       | None => true
                       end)
       (List.filter (λ d, match Js.parseInt (yearMin p) with
                          | Some yMin =>
                              (yMin <=? Js.or_num (Doc.first_publish_year d) 0)%Z
                          | None => true
                          end)
          (List.filter (λ d, if negb (String.eqb (langFilter p) "any")
                             then Js.includes (Js.or_nil (Doc.language d))
                                    (langFilter p)
                             else true)
             (List.filter (λ d, if ebookOnly p
                                then (0 <? Js.or_num (Doc.ebook_count_i d) 0)%Z
                                else true) docs)))).
  - destruct (ebookOnly p), (negb (String.eqb (langFilter p) "any")),
      (Js.parseInt (yearMin p)), (Js.parseInt (yearMax p));
      by rewrite ?filter_true.
  - rewrite !filter_filter_andb. apply filter_ext. intros d.
    unfold passes. by rewrite !andb_assoc.
Qed.

Lemma clientFilters_elem_of (p : Params) (docs : list Doc) (d : Doc) :
  d ∈ clientFilters p docs ↔
  d ∈ docs ∧
  (ebookOnly p = true → (0 < Js.or_num (Doc.ebook_count_i d) 0)%Z) ∧
  (langFilter p ≠ "any" → langFilter p ∈ Js.or_nil (Doc.language d)) ∧
  (∀ yMin, Js.parseInt (yearMin p) = Some yMin →
           (yMin <= Js.or_num (Doc.first_publish_year d) 0)%Z) ∧
  (∀ yMax, Js.parseInt (yearMax p) = Some yMax →
           (Js.or_num (Doc.first_publish_year d) 99999 <= yMax)%Z).
Proof.
  rewrite clientFilters_filter, list_elem_of_In, filter_In, <- list_elem_of_In.
  unfold passes. rewrite !andb_true_iff.
  destruct (ebookOnly p), (String.eqb_spec (langFilter p) "any") as [Hl|Hl],
    (Js.parseInt (yearMin p)) as [yMin|], (Js.parseInt (yearMax p)) as [yMax|];
    simpl; rewrite ?includes_elem_of, ?Z.ltb_lt, ?Z.leb_le;
    (split; [intros (Hd & ((He & Hlang) & Hmin) & Hmax)
            |intros (Hd & He & Hlang & Hmin & Hmax)]);
    repeat split; try done; try (by intros ? [= <-]);
    try (by apply He); try (by apply Hlang);
    try (by apply Hmin); try (by apply Hmax).
Qed.

(** X3. The four filters in a row are one pass over the answer that
    keeps the order: a record is kept exactly when it is in the answer,
    has a positive e-book count if e-books only are asked for, lists the
    chosen language if one is chosen, and has its first publish year (0
    and 99999 standing in for a missing one) within the bounds that
    parse as numbers. *)
Theorem clientFilters_keeps (p : Params) (docs : list Doc) (d : Doc) :
  clientFilters p docs = List.filter (passes p) docs ∧
  (d ∈ clientFilters p docs ↔
   d ∈ docs ∧
   (ebookOnly p = true → (0 < Js.or_num (Doc.ebook_count_i d) 0)%Z) ∧
   (langFilter p ≠ "any" → langFilter p ∈ Js.or_nil (Doc.language d)) ∧
   (∀ yMin, Js.parseInt (yearMin p) = Some yMin →
            (yMin <= Js.or_num (Doc.first_publish_year d) 0)%Z) ∧
   (∀ yMax, Js.parseInt (yearMax p) = Some yMax →
            (Js.or_num (Doc.first_publish_year d) 99999 <= yMax)%Z)).
Proof.
  split; [apply clientFilters_filter|apply clientFilters_elem_of].
Qed.

(** X4. With e-books only asked for, the card of every record that the
    filters keep shows the badge of the e-book: the filter and the card
    agree on what an available e-book is. *)
Theorem ebookOnly_badge (p : Params) (docs : list Doc) (d : Doc) (view : View) :
  ebookOnly p = true →
  d ∈ clientFilters p docs →
  Card.ebookBadge (ResultCard d view) = true.
Proof.
  intros He Hd. apply clientFilters_elem_of in Hd as (_ & Hpos & _).
  specialize (Hpos He). simpl. unfold Js.or_num in Hpos.
  destruct (Doc.ebook_count_i d) as [n|]; [|lia].
  apply Z.ltb_lt. by destruct (n =? 0)%Z; [lia|].
Qed.

Lemma ebookOnly_badge_witness :
  let p := MkParams ModeAll "" "" "" "" "" 20 "any" true "" "" ByRelevance in
  let d := Doc.mk "/works/OL6W" None None None None None None None None None
             (Some 3%Z) None in
  Card.ebookBadge (ResultCard d ViewGrid) = true.
Proof.
  intros p d. apply (ebookOnly_badge p [blank "/works/OL7W"; d] d ViewGrid).
  - reflexivity.
  - apply list_elem_of_In. simpl. by left.
Defined.

(** ** What every state of the page satisfies *)

Lemma run_snoc evs ev w : run (evs ++ [ev]) w = step ev (run evs w).
Proof. unfold run. by rewrite fold_left_app. Qed.

Lemma run_app evs1 evs2 w : run (evs1 ++ evs2) w = run evs2 (run evs1 w).
Proof. unfold run. by rewrite fold_left_app. Qed.

(** A property that the mounted page has and every event keeps holds in
    every state of the page. *)
Lemma run_invariant (P : World → Prop) :
  (∀ stored, P (mount stored)) →
  (∀ ev w, P w → P (step ev w)) →
  ∀ stored evs, P (run evs (mount stored)).
Proof.
  intros Hmount Hstep stored evs. induction evs as [|ev evs IH] using rev_ind.
  - apply Hmount.
  - rewrite run_snoc. by apply Hstep.
Qed.

(** [exec], from the settling of its fetch on, writes the result list,
    the facets, the total, the error and the loading flag, and nothing
    else; the loading flag is cleared in every case. *)
Lemma exec_settle_frame x o s :
  params (exec_settle x o s) = params s ∧
  page (exec_settle x o s) = page s ∧
  favorites (exec_settle x o s) = favorites s ∧
  loading (exec_settle x o s) = false.
Proof.
  destruct (thrown o) as [e|] eqn:Ho.
  - rewrite (exec_settle_thrown _ _ _ _ Ho). unfold exec_catch.
    by case_match.
  - apply thrown_None in Ho as (status & docs & total & -> & Hok).
    by rewrite exec_settle_data.
Qed.

Lemma edit_frame e s :
  loading (edit e s) = loading s ∧ favorites (edit e s) = favorites s ∧
  error (edit e s) = error s ∧ numFound (edit e s) = numFound s.
Proof. destruct s as [[] ?????????], e as [| | | | | | | | | | | |[]|]; done. Qed.

(** The page number of the next state is the one before, or 1, or the
    next one, or the previous one where that is not below 1. *)
Lemma page_step ev w :
  page (st (step ev w)) = page (st w) ∨
  page (st (step ev w)) = 1%Z ∨
  page (st (step ev w)) = (page (st w) + 1)%Z ∨
  page (st (step ev w)) = Z.max 1 (page (st w) - 1).
Proof.
  destruct ev as [e| | | | | | | |id o]; cbn [step].
  9: { destruct (List.find _ _); cbn [st]; [|by left].
       rewrite (proj1 (proj2 (exec_settle_frame _ _ _))). by left. }
  all: unfold onSubmit, loadMore, onPrev;
    repeat (case_match; simpl); rewrite ?page_edit; try case_match; auto.
Qed.

(** X5. The page number is never below 1: not after Prev on the first
    page, nor after any other sequence of events. *)
Theorem page_at_least_1 (stored : option (list Doc)) (evs : list Event) :
  (1 <= page (st (run evs (mount stored))))%Z.
Proof.
  revert stored evs. apply (run_invariant (λ w, (1 <= page (st w))%Z)).
  - done.
  - intros ev w Hw. destruct (page_step ev w) as [H|[H|[H|H]]]; lia.
Qed.

(** ** The fetches in flight, once more *)

Lemma rid_abort id rs : rid <$> abort id rs = rid <$> rs.
Proof.
  unfold abort. induction rs as [|r rs IH]; [done|]. cbn [map fmap list_fmap] in *.
  rewrite IH. by destruct (Nat.eqb (rid r) id).
Qed.

Lemma NoDup_fmap_filter {A B} (f : A → B) (g : A → bool) (l : list A) :
  NoDup (f <$> l) → NoDup (f <$> List.filter g l).
Proof.
  induction l as [|x l IH]; [done|]. rewrite fmap_cons, NoDup_cons.
  intros [Hx Hl]. simpl. destruct (g x); [|by apply IH].
  rewrite fmap_cons, NoDup_cons. split; [|by apply IH].
  rewrite list_elem_of_fmap in *. intros (y & Hy & Hin). apply Hx.
  exists y. split; [done|]. apply list_elem_of_In, filter_In in Hin as [Hin _].
  by apply list_elem_of_In.
Qed.

Lemma rids_NoDup_exec_start x w :
  ids_fresh w → rids_NoDup w → rids_NoDup (exec_start x w).
Proof.
  intros Hf Hn. unfold rids_NoDup, exec_start in *. simpl.
  rewrite fmap_app. apply NoDup_app.
  assert (rid <$> match abortRef w with
                  | Some id => abort id (inflight w)
                  | None => inflight w
                  end = rid <$> inflight w) as ->.
  { destruct (abortRef w); [apply rid_abort|done]. }
  split; [done|]. split; [|apply NoDup_singleton].
  intros n Hin ->%list_elem_of_singleton.
  apply list_elem_of_fmap in Hin as (r & Hr & Hin).
  unfold ids_fresh in Hf. eapply Forall_forall in Hf; [|exact Hin]. simpl in *. lia.
Qed.

Lemma ids_distinct_step ev w : ids_distinct w → ids_distinct (step ev w).
Proof.
  intros [Hf Hn]. split; [by apply ids_fresh_step|].
  destruct ev; simpl;
    unfold searchEffect, onSubmit, loadMore, onPrev, doSearch;
    repeat (case_match; simpl); try done;
    try (by apply rids_NoDup_exec_start).
  all: unfold rids_NoDup in *; simpl; by apply NoDup_fmap_filter.
Qed.

Lemma unaborted_at_most_one id rs :
  NoDup (rid <$> rs) →
  Forall (λ r, Some id = Some (rid r) ∨ aborted r = true) rs →
  (length (List.filter (λ r, negb (aborted r)) rs) ≤ 1)%nat.
Proof.
  induction rs as [|r rs IH]; [simpl; lia|].
  rewrite fmap_cons, NoDup_cons, Forall_cons. intros [Hr Hn] [Hc Hrs]. simpl.
  destruct (aborted r) eqn:Ha; simpl; [by apply IH|].
  destruct Hc as [[= ->]|]; [|done].
  assert (List.filter (λ r, negb (aborted r)) rs = []) as ->; [|simpl; lia].
  clear IH Hn. induction rs as [|q rs IH]; [done|].
  apply Forall_cons in Hrs as [Hq Hrs]. simpl.
  rewrite fmap_cons, not_elem_of_cons in Hr. destruct Hr as [Hne Hr].
  destruct (aborted q) eqn:Hqa; simpl; [by apply IH|].
  destruct Hq as [[= Heq]|]; [congruence|done].
Qed.

(** X6. At most one fetch that has not been aborted is in flight, in
    every state of the page: starting a fetch aborts the one before. *)
Theorem one_fetch_current (stored : option (list Doc)) (evs : list Event) :
  (length (unaborted (run evs (mount stored))) ≤ 1)%nat.
Proof.
  pose proof (run_invariant ids_distinct) as Hd.
  pose proof (run_invariant one_current) as Hc.
  specialize (Hd ltac:(by repeat constructor) ids_distinct_step stored evs).
  specialize (Hc ltac:(by repeat constructor) one_current_step stored evs).
  unfold unaborted, one_current in *.
  destruct (abortRef (run evs (mount stored))) as [id|] eqn:Hab.
  - eapply unaborted_at_most_one; [apply Hd|exact Hc].
  - eapply (unaborted_at_most_one 0); [apply Hd|].
    eapply Forall_impl; [exact Hc|]. intros r [?|?]; [done|by right].
Qed.

Lemma loading_has_fetch_exec_start x w : loading_has_fetch (exec_start x w).
Proof.
  intros _. unfold exec_start. simpl. eexists. split; [|split].
  - apply elem_of_app. right. by apply list_elem_of_singleton.
  - reflexivity.
  - reflexivity.
Qed.

Lemma loading_has_fetch_step ev w :
  loading_has_fetch w → loading_has_fetch (step ev w).
Proof.
  intros Hw. destruct ev as [e| | | | | | | |id o]; cbn [step].
  9: { destruct (List.find _ _); [|done]. intros Hl. exfalso. cbn [st] in Hl.
       by rewrite (proj2 (proj2 (proj2 (exec_settle_frame _ _ _)))) in Hl. }
  all: unfold searchEffect, onSubmit, loadMore, onPrev, doSearch;
    repeat case_match; try done; try apply loading_has_fetch_exec_start.
  all: intros Hl; apply Hw; revert Hl; simpl;
    by rewrite ?(proj1 (edit_frame _ _)).
Qed.

(** X7. While the loading flag is set, a fetch is in flight that has not
    been aborted, and it is the one of the last controller: the page
    never shows that it is searching with nothing left to wait for. *)
Theorem loading_means_fetch (stored : option (list Doc)) (evs : list Event) :
  loading_has_fetch (run evs (mount stored)).
Proof.
  revert stored evs. apply (run_invariant loading_has_fetch).
  - intros stored Hl. discriminate Hl.
  - apply loading_has_fetch_step.
Qed.

(** ** The order in which two answers arrive *)

Lemma step_Settle_None id o w :
  List.find (λ r, Nat.eqb (rid r) id) (inflight w) = None →
  step (Settle id o) w = w.
Proof. intros H. simpl. by rewrite H. Qed.

Lemma step_Settle_Some id o w r :
  List.find (λ r, Nat.eqb (rid r) id) (inflight w) = Some r →
  step (Settle id o) w =
  {| st := exec_settle (awaiting r)
             (if aborted r then Rejected AbortError else o) (st w);
     abortRef := abortRef w; debounceTimer := debounceTimer w;
     timeouts := timeouts w;
     inflight := List.filter (λ r, negb (Nat.eqb (rid r) id)) (inflight w);
     next_rid := next_rid w |}.
Proof. intros H. simpl. by rewrite H. Qed.

Lemma find_filter_other a b (rs : list Request) :
  a ≠ b →
  List.find (λ r, Nat.eqb (rid r) b)
    (List.filter (λ r, negb (Nat.eqb (rid r) a)) rs)
  = List.find (λ r, Nat.eqb (rid r) b) rs.
Proof.
  intros Hne. induction rs as [|r rs IH]; [done|]. simpl.
  destruct (Nat.eqb_spec (rid r) a) as [Ha|Ha]; simpl.
  - destruct (Nat.eqb_spec (rid r) b); [congruence|done].
  - by rewrite IH.
Qed.

Lemma filter_comm {A} (f g : A → bool) (l : list A) :
  List.filter f (List.filter g l) = List.filter g (List.filter f l).
Proof.
  rewrite !filter_filter_andb. apply filter_ext. intros x. apply andb_comm.
Qed.

Lemma exec_settle_after_setLoading x o v s :
  exec_settle x o (setLoading v s) = exec_settle x o s.
Proof.
  destruct (thrown o) as [e|] eqn:Ho.
  - rewrite !(exec_settle_thrown _ _ _ _ Ho). unfold exec_catch.
    by case_match.
  - apply thrown_None in Ho as (status & docs & total & -> & Hok).
    by rewrite !exec_settle_data.
Qed.

Lemma setLoading_exec_settle x o s :
  setLoading false (exec_settle x o s) = exec_settle x o s.
Proof.
  destruct (thrown o) as [e|] eqn:Ho.
  - by rewrite !(exec_settle_thrown _ _ _ _ Ho).
  - apply thrown_None in Ho as (status & docs & total & -> & Hok).
    by rewrite !exec_settle_data.
Qed.

Lemma exec_settle_abort x s :
  exec_settle x (Rejected AbortError) s = setLoading false s.
Proof. by rewrite (exec_settle_thrown _ _ _ AbortError). Qed.

(** X8. When a superseded fetch and another fetch both settle, the order
    of the two does not matter: either order leaves the same world, and
    what is published is what the other fetch alone publishes. *)
Theorem superseded_settle_commutes (stored : option (list Doc))
    (evs : list Event) (a b : nat) (oA oB : Outcome) :
  let w := run evs (mount stored) in
  abortRef w ≠ Some a →
  a ≠ b →
  run [Settle a oA; Settle b oB] w = run [Settle b oB; Settle a oA] w ∧
  published (st (run [Settle a oA; Settle b oB] w))
  = published (st (step (Settle b oB) w)).
Proof.
  intros w Hsup Hne. unfold run. cbn [fold_left].
  assert (reachable w) as Hw by (by exists stored, evs).
  destruct (List.find (λ r, Nat.eqb (rid r) a) (inflight w)) as [ra|] eqn:Ha.
  2: { rewrite (step_Settle_None a oA w Ha). split; [|done].
       destruct (List.find (λ r, Nat.eqb (rid r) b) (inflight w)) as [rb|] eqn:Hb.
       - rewrite (step_Settle_Some b oB w rb Hb).
         rewrite step_Settle_None; [done|]. cbn [inflight].
         by rewrite find_filter_other.
       - rewrite (step_Settle_None b oB w Hb). by rewrite step_Settle_None. }
  pose proof (superseded_aborted w a ra Hw Ha Hsup) as Hab.
  rewrite (step_Settle_Some a oA w ra Ha), Hab, exec_settle_abort.
  destruct (List.find (λ r, Nat.eqb (rid r) b) (inflight w)) as [rb|] eqn:Hb.
  - rewrite (step_Settle_Some b oB w rb Hb).
    rewrite (step_Settle_Some b oB _ rb);
      [|cbn [inflight]; by rewrite find_filter_other].
    rewrite (step_Settle_Some a oA _ ra);
      [|cbn [inflight]; by rewrite find_filter_other].
    cbn [st inflight abortRef debounceTimer timeouts next_rid].
    rewrite Hab, exec_settle_abort.
    rewrite exec_settle_after_setLoading, setLoading_exec_settle.
    split; [|done]. f_equal. apply filter_comm.
  - rewrite (step_Settle_None b oB w Hb).
    rewrite (step_Settle_None b oB);
      [|cbn [inflight]; by rewrite find_filter_other].
    split; [|done]. by rewrite (step_Settle_Some a oA w ra Ha), Hab, exec_settle_abort.
Qed.

Lemma superseded_settle_commutes_witness :
  let oA := Resolved 200 (Data (Some [titled "/works/OL1W" "Dune"]) (Some 1%Z)) in
  let oB := Resolved 200 (Data (Some [titled "/works/OL2W" "Emma"]) (Some 1%Z)) in
  let w := run [Submit; Submit] (mount None) in
  run [Settle 0 oA; Settle 1 oB] w = run [Settle 1 oB; Settle 0 oA] w ∧
  published (st (run [Settle 0 oA; Settle 1 oB] w))
  = published (st (step (Settle 1 oB) w)).
Proof.
  intros oA oB.
  apply (superseded_settle_commutes None [Submit; Submit] 0 1 oA oB);
    discriminate.
Defined.

(** ** The debounce *)

(** An input issues no fetch: it sets the state, and the timer when a
    dependency of the effect changed. *)
Lemma step_Input e w :
  step (Input e) w =
  {| st := if decide (params (edit e (st w)) = params (st w))
           then edit e (st w) else setPage 1 (edit e (st w));
     abortRef := abortRef w;
     debounceTimer := if decide (params (edit e (st w)) = params (st w))
                      then debounceTimer w
                      else Some (MkExec (edit e (st w)) false);
     timeouts := timeouts w; inflight := inflight w; next_rid := next_rid w |}.
Proof. cbn [step]. by case_decide. Qed.

Lemma run_Inputs_frame (es : list Edit) w :
  inflight (run (Input <$> es) w) = inflight w ∧
  next_rid (run (Input <$> es) w) = next_rid w ∧
  abortRef (run (Input <$> es) w) = abortRef w.
Proof.
  induction es as [|e es IH] using rev_ind; [done|].
  rewrite fmap_app. change (Input <$> [e]) with [Input e].
  rewrite run_snoc, step_Input. apply IH.
Qed.

Lemma length_abort id rs : length (abort id rs) = length rs.
Proof. unfold abort. apply length_map. Qed.

Lemma length_inflight_exec_start x w :
  length (inflight (exec_start x w)) = S (length (inflight w)).
Proof.
  unfold exec_start. simpl. rewrite length_app. simpl.
  destruct (abortRef w); rewrite ?length_abort; lia.
Qed.

(** Inputs that change no search parameter leave the timer as it is. *)
Lemma run_quiet (es : list Edit) w :
  quiet es (st w) →
  debounceTimer (run (Input <$> es) w) = debounceTimer w.
Proof.
  revert w. induction es as [|e es IH]; intros w; [done|].
  intros [He Hes]. change (run (Input <$> e :: es) w)
    with (run (Input <$> es) (step (Input e) w)).
  rewrite IH; rewrite step_Input; cbn [st debounceTimer]; by case_decide.
Qed.

(** Either no input of [es] changes a search parameter, or one of them is
    the last to do so. *)
Lemma quiet_or_last_change (es : list Edit) w :
  quiet es (st w) ∨
  ∃ es1 e es2,
    es = es1 ++ e :: es2 ∧
    params (edit e (st (run (Input <$> es1) w)))
    ≠ params (st (run (Input <$> es1) w)) ∧
    quiet es2 (setPage 1 (edit e (st (run (Input <$> es1) w)))).
Proof.
  revert w. induction es as [|e es IH]; intros w; [by left|].
  destruct (IH (step (Input e) w)) as [Hq|(es1 & e' & es2 & -> & Hne & Hq)].
  - rewrite step_Input in Hq. cbn [st] in Hq.
    destruct (decide (params (edit e (st w)) = params (st w))) as [He|He].
    + by left.
    + right. by exists [], e, es.
  - right. by exists (e :: es1), e', es2.
Qed.

(** X9. Inputs alone issue no fetch, however many there are; when the
    debounce timer then fires, it issues at most one fetch; a timer that
    has fired does not fire again. That one fetch is made by the render
    of the last input that changed a search parameter, whatever inputs
    that change none follow it; when no input changed a search parameter
    the timer is the one that was pending before the inputs; and one of
    the two is the case. *)
Theorem debounce_collapses (w : World) (es : list Edit) :
  let w1 := run (Input <$> es) w in
  inflight w1 = inflight w ∧
  (length (inflight (step DebounceFire w1)) ≤ S (length (inflight w)))%nat ∧
  step DebounceFire (step DebounceFire w1) = step DebounceFire w1 ∧
  (∀ es1 e es2,
     es = es1 ++ e :: es2 →
     let w0 := run (Input <$> es1) w in
     params (edit e (st w0)) ≠ params (st w0) →
     quiet es2 (setPage 1 (edit e (st w0))) →
     debounceTimer w1 = Some (MkExec (edit e (st w0)) false) ∧
     ∃ r, last (inflight (step DebounceFire w1)) = Some r ∧
          awaiting r = MkExec (edit e (st w0)) false ∧
          length (inflight (step DebounceFire w1)) = S (length (inflight w))) ∧
  (quiet es (st w) → debounceTimer w1 = debounceTimer w) ∧
  (quiet es (st w) ∨
   ∃ es1 e es2,
     es = es1 ++ e :: es2 ∧
     params (edit e (st (run (Input <$> es1) w)))
     ≠ params (st (run (Input <$> es1) w)) ∧
     quiet es2 (setPage 1 (edit e (st (run (Input <$> es1) w))))).
Proof.
  intros w1. pose proof (run_Inputs_frame es w) as (Hin & _ & _).
  fold w1 in Hin. split; [done|]. rewrite <- Hin.
  split; [|split; [|split; [|split]]].
  - cbn [step]. destruct (debounceTimer w1); [|lia].
    by rewrite length_inflight_exec_start.
  - destruct (debounceTimer w1) as [x|] eqn:Ht.
    + cbn [step]. rewrite Ht. reflexivity.
    + cbn [step]. by rewrite !Ht.
  - intros es1 e es2 -> w0 Hne Hq.
    assert (debounceTimer w1 = Some (MkExec (edit e (st w0)) false)) as Ht.
    { subst w1. rewrite fmap_app, run_app.
      change (run (Input <$> e :: es2) (run (Input <$> es1) w))
        with (run (Input <$> es2) (step (Input e) w0)).
      rewrite run_quiet; rewrite step_Input; cbn [st debounceTimer];
        by case_decide. }
    split; [done|]. cbn [step]. rewrite Ht.
    rewrite length_inflight_exec_start. cbn [inflight].
    unfold exec_start. cbn [inflight]. eexists. rewrite last_snoc.
    split; [reflexivity|]. split; reflexivity.
  - apply run_quiet.
  - apply quiet_or_last_change.
Qed.

Lemma debounce_collapses_witness :
  let es := [SetQuery "d"; SetQuery "du"; SetQuery "dun"; SetQuery "dune";
             SetMode ModeAll; SetQuery "dune"] in
  let w1 := run (Input <$> es) (mount None) in
  let w0 := run (Input <$> [SetQuery "d"; SetQuery "du"; SetQuery "dun"])
              (mount None) in
  debounceTimer w1 = Some (MkExec (edit (SetQuery "dune") (st w0)) false) ∧
  ∃ r, last (inflight (step DebounceFire w1)) = Some r ∧
       awaiting r = MkExec (edit (SetQuery "dune") (st w0)) false ∧
       length (inflight (step DebounceFire w1)) = S (length (inflight (mount None))).
Proof.
  intros es w1 w0.
  apply (proj1 (proj2 (proj2 (proj2 (debounce_collapses (mount None) es))))
           [SetQuery "d"; SetQuery "du"; SetQuery "dun"] (SetQuery "dune")
           [SetMode ModeAll; SetQuery "dune"]);
    [reflexivity|discriminate|by repeat split].
Defined.

Example debounce_address :
  Url.toString <$>
    (url <$> inflight
       (run ((Input <$> [SetQuery "d"; SetQuery "du"; SetQuery "dun"; SetQuery "dune"])
             ++ [DebounceFire]) (mount None)))
  = ["https://openlibrary.org/search.json?q=dune&page=1&limit=20&fields=key%2Ctitle%2Csubtitle%2Cauthor_name%2Cfirst_publish_year%2Cpublish_year%2Cpublisher%2Cedition_count%2Ccover_i%2Clanguage%2Cebook_count_i%2Csubject%2Cratings_average"].
Proof. vm_compute. reflexivity. Qed.

Example debounce_address_quiet_tail :
  Url.toString <$>
    (url <$> inflight
       (run ((Input <$> [SetQuery "d"; SetQuery "dune"; SetMode ModeAll;
                         SetQuery "dune"])
             ++ [DebounceFire]) (mount None)))
  = ["https://openlibrary.org/search.json?q=dune&page=1&limit=20&fields=key%2Ctitle%2Csubtitle%2Cauthor_name%2Cfirst_publish_year%2Cpublish_year%2Cpublisher%2Cedition_count%2Ccover_i%2Clanguage%2Cebook_count_i%2Csubject%2Cratings_average"].
Proof. vm_compute. reflexivity. Qed.

(** ** The facet lists, once more *)

Lemma published_step ev w :
  published (st (step ev w)) = published (st w) ∨
  ∃ k combined,
    published (st (step ev w)) =
      (sortDocs k combined, langsOf combined, subjectsOf combined,
       publishersOf combined).
Proof.
  destruct ev as [e| | | | | | | |id o]; cbn [step].
  9: { destruct (List.find _ _); [|by left]. apply published_exec_settle. }
  all: left; unfold searchEffect, onSubmit, loadMore, onPrev, doSearch;
    repeat case_match; try done; simpl;
    by rewrite ?published_setPage, ?published_edit.
Qed.

(** What is published is nothing at all, or a merged list in the order
    of a sort key together with the facets of that list. *)
Lemma published_run stored evs :
  published (st (run evs (mount stored))) = ([], [], [], []) ∨
  ∃ k combined,
    published (st (run evs (mount stored))) =
      (sortDocs k combined, langsOf combined, subjectsOf combined,
       publishersOf combined).
Proof.
  induction evs as [|ev evs IH] using rev_ind; [by left|].
  rewrite run_snoc. destruct (published_step ev (run evs (mount stored)))
    as [->|Hm]; [done|by right].
Qed.

Lemma set_add_NoDup s x : NoDup s → NoDup (Js.set_add s x).
Proof.
  intros Hs. unfold Js.set_add. destruct (Js.includes s x) eqn:Hx; [done|].
  apply NoDup_app. split; [done|]. split; [|apply NoDup_singleton].
  intros y Hy ->%list_elem_of_singleton.
  apply includes_elem_of in Hy. congruence.
Qed.

Lemma set_add_mono s x v : v ∈ s → v ∈ Js.set_add s x.
Proof.
  intros Hv. unfold Js.set_add. destruct (Js.includes s x); [done|].
  apply elem_of_app. by left.
Qed.

Lemma set_add_new s x : x ∈ Js.set_add s x.
Proof.
  unfold Js.set_add. destruct (Js.includes s x) eqn:Hx.
  - by apply includes_elem_of.
  - apply elem_of_app. right. by apply list_elem_of_singleton.
Qed.

Lemma fold_set_add_NoDup xs s : NoDup s → NoDup (fold_left Js.set_add xs s).
Proof.
  revert s. induction xs as [|x xs IH]; [done|]. intros s Hs.
  apply IH. by apply set_add_NoDup.
Qed.

Lemma fold_set_add_mono xs s v : v ∈ s → v ∈ fold_left Js.set_add xs s.
Proof.
  revert s. induction xs as [|x xs IH]; [done|]. intros s Hs.
  apply IH. by apply set_add_mono.
Qed.

Lemma fold_set_add_new xs s v : v ∈ xs → v ∈ fold_left Js.set_add xs s.
Proof.
  revert s. induction xs as [|x xs IH]; intros s Hv; [by apply elem_of_nil in Hv|].
  apply elem_of_cons in Hv as [->|Hv]; simpl.
  - apply fold_set_add_mono, set_add_new.
  - by apply IH.
Qed.

Lemma collect_NoDup sample combined : NoDup (collect sample combined).
Proof.
  unfold collect. generalize (NoDup_nil_2 : NoDup (@nil string)).
  generalize (@nil string). induction combined as [|d combined IH]; [done|].
  intros s Hs. apply IH. by apply fold_set_add_NoDup.
Qed.

Lemma collect_complete sample combined d v :
  d ∈ combined → v ∈ sample d → v ∈ collect sample combined.
Proof.
  unfold collect. generalize (@nil string).
  induction combined as [|d' combined IH]; intros s Hd Hv;
    [by apply elem_of_nil in Hd|].
  apply elem_of_cons in Hd as [->|Hd]; simpl; [|by apply IH].
  assert (∀ s', v ∈ s' →
     v ∈ fold_left (λ set d, fold_left Js.set_add (sample d) set) combined s')
    as Hmono.
  { clear. induction combined as [|d combined IH]; [done|]. intros s' Hs'.
    apply IH. by apply fold_set_add_mono. }
  by apply Hmono, fold_set_add_new.
Qed.

Lemma take_NoDup {A} n (l : list A) : NoDup l → NoDup (take n l).
Proof. intros Hl. by eapply sublist_NoDup; [|apply sublist_take]. Qed.

Lemma take_short {A} n (l : list A) : length (take n l) < n → take n l = l.
Proof. rewrite length_take. intros H. apply take_ge. lia. Qed.

(** X10. In every state of the page, no facet list holds a value twice,
    and the lists of languages, subjects and publishers hold at most 20,
    50 and 30 values. *)
Theorem facets_bounded (stored : option (list Doc)) (evs : list Event) :
  facets_tidy (st (run evs (mount stored))).
Proof.
  unfold facets_tidy.
  destruct (published_run stored evs) as [H|(k & combined & H)];
    unfold published in H; injection H as _ -> -> ->.
  - repeat split; try apply NoDup_nil_2; simpl; lia.
  - unfold langsOf, subjectsOf, publishersOf.
    repeat split; try (apply take_NoDup, collect_NoDup);
      rewrite length_take; lia.
Qed.

(** X11. In every state of the page, a facet list that is below its
    bound is complete: it holds every language of every record of the
    result list, or each of the first 10 subjects, or each of the first 3
    publishers of every record. *)
Theorem facets_complete_below_bound (stored : option (list Doc))
    (evs : list Event) :
  facets_complete (st (run evs (mount stored))).
Proof.
  unfold facets_complete.
  destruct (published_run stored evs) as [H|(k & combined & H)];
    unfold published in H; injection H as -> -> -> ->.
  - repeat split; intros _ d v Hd; by apply elem_of_nil in Hd.
  - unfold langsOf, subjectsOf, publishersOf.
    repeat split; intros ->%take_short d v Hd%sortDocs_elem_of Hv;
      by eapply collect_complete.
Qed.

(** ** Favourites, once more *)

Lemma isFav_other favs doc other :
  Doc.key other ≠ Doc.key doc →
  isFav (List.filter (λ f, negb (String.eqb (Doc.key f) (Doc.key doc))) favs) other
  = isFav favs other.
Proof.
  intros Hne. unfold isFav. induction favs as [|f favs IH]; [done|]. simpl.
  destruct (String.eqb_spec (Doc.key f) (Doc.key doc)) as [Hf|Hf]; simpl.
  - rewrite IH. destruct (String.eqb_spec (Doc.key f) (Doc.key other)); [congruence|done].
  - by rewrite IH.
Qed.

(** X12. A click on the favourite button of a record flips whether that
    record is a favourite, and leaves every record with another key as
    it was. *)
Theorem toggleFav_flips (w : World) (doc other : Doc) :
  let w' := step (ToggleFav doc) w in
  isFav (favorites (st w')) doc = negb (isFav (favorites (st w)) doc) ∧
  (Doc.key other ≠ Doc.key doc →
   isFav (favorites (st w')) other = isFav (favorites (st w)) other).
Proof.
  cbn [step upd_st st favorites setFavorites]. unfold toggleFav.
  destruct (isFav (favorites (st w)) doc) eqn:Hfav; simpl.
  - split; [apply isFav_removed|apply isFav_other].
  - unfold isFav at 1 2. simpl. rewrite String.eqb_refl. split; [done|].
    intros Hne. by destruct (String.eqb_spec (Doc.key doc) (Doc.key other));
      [congruence|].
Qed.

Lemma favorites_step ev w :
  favorites (st (step ev w)) = favorites (st w) ∨
  (∃ doc, ev = ToggleFav doc ∧
          favorites (st (step ev w))
          = toggleFav (favorites (st w)) doc (favorites (st w))) ∨
  (ev = ClearFav ∧ favorites (st (step ev w)) = []).
Proof.
  destruct ev as [e| | | |doc| | | |id o]; cbn [step].
  9: { left. destruct (List.find _ _); [|done]. cbn [st].
       apply exec_settle_frame. }
  5: { right. left. by exists doc. }
  5: { right. by right. }
  all: left; unfold searchEffect, onSubmit, loadMore, onPrev, doSearch;
    repeat case_match; try done; simpl; by rewrite ?(proj1 (proj2 (edit_frame _ _))).
Qed.

Lemma toggleFav_NoDup favs doc :
  NoDup (keys favs) → NoDup (keys (toggleFav favs doc favs)).
Proof.
  intros Hn. unfold toggleFav. destruct (isFav favs doc) eqn:Hfav.
  - by apply NoDup_fmap_filter.
  - unfold keys. rewrite fmap_cons. apply NoDup_cons. split; [|done].
    intros Hin%isFav_elem_of. congruence.
Qed.

(** X13. When the stored favourites hold no key twice, the favourites
    hold no key twice in any state of the page. *)
Theorem favorites_keys_NoDup (stored : option (list Doc)) (evs : list Event) :
  NoDup (keys (default [] stored)) →
  NoDup (keys (favorites (st (run evs (mount stored))))).
Proof.
  intros Hs. induction evs as [|ev evs IH] using rev_ind; [done|].
  rewrite run_snoc.
  destruct (favorites_step ev (run evs (mount stored)))
    as [->|[(doc & _ & ->)|[_ ->]]]; [done| |apply NoDup_nil_2].
  by apply toggleFav_NoDup.
Qed.

Lemma favorites_keys_NoDup_witness :
  NoDup (keys (favorites (st (run
    [ToggleFav (titled "/works/OL2W" "Emma"); ToggleFav (titled "/works/OL1W" "Dune");
     ToggleFav (titled "/works/OL1W" "Dune, again")]
    (mount (Some [titled "/works/OL1W" "Dune"])))))).
Proof.
  apply (favorites_keys_NoDup (Some [titled "/works/OL1W" "Dune"])).
  simpl. apply NoDup_singleton.
Defined.

(** ** The total *)

(** X14. When the answer of a fetch that was not aborted carries no
    numeric [numFound], the total becomes the length of the result list,
    and the button Load more is disabled from then on: a click changes
    nothing. *)
Theorem no_total_disables_loadMore (w : World) (id : nat) (r : Request)
    (status : Z) (docs : option (list Doc)) :
  List.find (λ r, Nat.eqb (rid r) id) (inflight w) = Some r →
  aborted r = false →
  ok status = true →
  let w' := step (Settle id (Resolved status (Data docs None))) w in
  numFound (st w') = Z.of_nat (length (results (st w'))) ∧
  step LoadMore w' = w'.
Proof.
  intros Hr Ha Hok w'.
  assert (numFound (st w') = Z.of_nat (length (results (st w')))) as Hn.
  { subst w'. rewrite (step_Settle _ _ _ _ Hr), Ha.
    by rewrite exec_settle_data. }
  split; [done|]. cbn [step]. rewrite Hn, Z.leb_refl. by rewrite orb_true_r.
Qed.

Lemma no_total_disables_loadMore_witness :
  let w' := step (Settle 0 (Resolved 200
                   (Data (Some [titled "/works/OL1W" "Dune"]) None))) searching in
  numFound (st w') = Z.of_nat (length (results (st w'))) ∧
  step LoadMore w' = w'.
Proof.
  by apply (no_total_disables_loadMore searching 0 _ 200
              (Some [titled "/works/OL1W" "Dune"]) eq_refl).
Defined.

(** ** The latest publish year *)

(** The maximum of an array does not depend on the order of its
    elements. *)
Lemma max_of_Permutation (x y : Z) l k :
  x :: l ≡ₚ y :: k → Js.max_of x l = Js.max_of y k.
Proof.
  intros Hp.
  pose proof (max_of_elem_of x l) as H1. pose proof (max_of_elem_of y k) as H2.
  rewrite Hp in H1. rewrite <- Hp in H2.
  apply max_of_upper in H1, H2. lia.
Qed.

(** The key of the sort by latest year, read off a list of years. *)
Lemma latest_sorted (l : list Z) (d : Z) :
  match Js.sort (λ a b, (b - a)%Z) l with
  | y :: ys => Js.max_of y ys
  | [] => d
  end
  = match l with
    | y :: ys => Js.max_of y ys
    | [] => d
    end.
Proof.
  pose proof (sort_Permutation (λ a b, (b - a)%Z) l) as Hp.
  destruct (Js.sort _ l) as [|y' ys'] eqn:Hs, l as [|y ys]; try done;
    try (by apply Permutation_nil_cons in Hp);
    try (symmetry in Hp; by apply Permutation_nil_cons in Hp).
  by apply max_of_Permutation.
Qed.

(** X15. [DetailsModal] rendered again on the record it has left yields
    the same constants and leaves the record as it is: the in-place sort
    changes the record at most once. *)
Theorem DetailsModal_again (doc : Doc) :
  ∃ v doc', DetailsModal (Some doc) = Some (v, doc') ∧
            DetailsModal (Some doc') = Some (v, doc').
Proof.
  eexists _, _. split; [reflexivity|].
  assert (∀ l, Js.sort (λ a b, (b - a)%Z) (Js.sort (λ a b, (b - a)%Z) l)
               = Js.sort (λ a b, (b - a)%Z) l) as Hidem.
  { intros l. apply sort_Sorted_id, sort_Sorted. intros a b. unfold cmp_le. lia. }
  unfold DetailsModal. destruct doc as [? ? ? ? ? [years|] ? ? ? ? ? ?]; simpl;
    [by rewrite Hidem|done].
Qed.

(** X16. The in-place sort of [DetailsModal] changes nothing that the
    rest of the page reads from the record: its sort keys, the verdict of
    the filters, and its card are those of the record before the call. *)
Theorem DetailsModal_harmless (doc : Doc) :
  ∃ v doc', DetailsModal (Some doc) = Some (v, doc') ∧
            (∀ k, keyFns k doc' = keyFns k doc) ∧
            (∀ p, passes p doc' = passes p doc) ∧
            (∀ view, ResultCard doc' view = ResultCard doc view) ∧
            Doc.key doc' = Doc.key doc.
Proof.
  eexists _, _. split; [reflexivity|].
  destruct doc as [? ? ? ? fpy [years|] ? ? ? ? ? ?]; [|done].
  cbn [Doc.publish_year]. repeat split.
  - intros [| | | |]; try reflexivity. cbn [keyFns Doc.publish_year Doc.first_publish_year].
    f_equal. apply latest_sorted.
  - intros view. unfold ResultCard.
    cbn [Doc.publish_year Doc.first_publish_year Js.or_nil Doc.author_name
         Doc.title Doc.subtitle Doc.publisher Doc.language Doc.cover_i
         Doc.edition_count Doc.subject Doc.key Doc.ebook_count_i].
    f_equal.
    pose proof (sort_Permutation (λ a b, (b - a)%Z) years) as Hp.
    destruct (Js.sort _ years) as [|y' ys'] eqn:Hs, years as [|y ys]; try done;
      try (by apply Permutation_nil_cons in Hp);
      try (symmetry in Hp; by apply Permutation_nil_cons in Hp).
    f_equal. by apply max_of_Permutation.
Qed.

(** X17. For a record with publish years, the latest year on its card is
    one of those years and no year of the record is later; the sort by
    latest year uses that same year as its key. *)
Theorem latestYear_is_max (doc : Doc) (view : View) (y : Z) :
  y ∈ Js.or_nil (Doc.publish_year doc) →
  ∃ m, Card.latestYear (ResultCard doc view) = KNum m ∧
       keyFns ByLatest doc = KNum m ∧
       m ∈ Js.or_nil (Doc.publish_year doc) ∧
       (y <= m)%Z.
Proof.
  intros Hy. cbn [ResultCard Card.latestYear keyFns].
  destruct (Doc.publish_year doc) as [[|y0 ys]|]; simpl in *;
    try (by apply elem_of_nil in Hy).
  eexists. split; [reflexivity|]. split; [reflexivity|].
  split; [apply max_of_elem_of|by apply max_of_upper].
Qed.

Lemma latestYear_is_max_witness :
  ∃ m, Card.latestYear
         (ResultCard (printed "/works/OL4W" [1999; 2005; 2001]%Z) ViewGrid)
       = KNum m ∧
       keyFns ByLatest (printed "/works/OL4W" [1999; 2005; 2001]%Z) = KNum m ∧
       m ∈ Js.or_nil (Doc.publish_year (printed "/works/OL4W" [1999; 2005; 2001]%Z)) ∧
       (2001 <= m)%Z.
Proof.
  apply (latestYear_is_max (printed "/works/OL4W" [1999; 2005; 2001]%Z) ViewGrid 2001).
  apply list_elem_of_In. simpl. auto.
Defined.

(** ** The query *)

(** The entries of the query, in order: [set] never meets a name that
    is there already. *)
Lemma buildQueryUrl_entries mode query author title isbn subject page perPage :
  Url.searchParams
    (buildQueryUrl mode query author title isbn subject page perPage)
  = match mode with
    | ModeAll => if Js.truthy_str query then [("q", query)] else []
    | ModeTitle => if Js.truthy_str title then [("title", title)] else []
    | ModeAuthor => if Js.truthy_str author then [("author", author)] else []
    | ModeIsbn => if Js.truthy_str isbn then [("isbn", isbn)] else []
    end
    ++ (if Js.truthy_str subject then [("subject", subject)] else [])
    ++ (if (page =? 0)%Z then [] else [("page", pretty page)])
    ++ (if (perPage =? 0)%Z then [] else [("limit", pretty perPage)])
    ++ [("fields", Js.join "," fields)].
Proof.
  unfold buildQueryUrl, when.
  destruct mode; repeat case_bool_decide; try done; cbn [andb];
    repeat match goal with
           | |- context [Js.truthy_str ?s] => destruct (Js.truthy_str s)
           end;
    destruct (page =? 0)%Z, (perPage =? 0)%Z; reflexivity.
Qed.

(** X18. The query that [buildQuery] builds names no parameter twice.
    It carries the search text of the chosen mode under the name of that
    mode when the text is not empty, and no search text of another mode,
    so at most one of [q], [title], [author] and [isbn]; it carries the
    subject when that is not empty, the page and the limit when they are
    not 0, and always the list of fields. *)
Theorem buildQuery_params (mode : Mode) (query author title isbn subject : string)
    (page perPage : Z) :
  let u := buildQueryUrl mode query author title isbn subject page perPage in
  let sp := Url.searchParams u in
  Url.base u = OPENLIB_SEARCH ∧
  NoDup (fst <$> sp) ∧
  Url.get "q" sp
  = (if bool_decide (mode = ModeAll) && Js.truthy_str query then Some query else None) ∧
  Url.get "title" sp
  = (if bool_decide (mode = ModeTitle) && Js.truthy_str title then Some title else None) ∧
  Url.get "author" sp
  = (if bool_decide (mode = ModeAuthor) && Js.truthy_str author then Some author else None) ∧
  Url.get "isbn" sp
  = (if bool_decide (mode = ModeIsbn) && Js.truthy_str isbn then Some isbn else None) ∧
  (length (List.filter (λ p, Js.includes ["q"; "title"; "author"; "isbn"] (fst p)) sp)
   ≤ 1)%nat ∧
  Url.get "subject" sp = (if Js.truthy_str subject then Some subject else None) ∧
  Url.get "page" sp = (if (page =? 0)%Z then None else Some (pretty page)) ∧
  Url.get "limit" sp = (if (perPage =? 0)%Z then None else Some (pretty perPage)) ∧
  Url.get "fields" sp = Some (Js.join "," fields).
Proof.
  cbv zeta. rewrite buildQueryUrl_entries.
  split; [reflexivity|].
  destruct mode; repeat case_bool_decide; try done; cbn [andb];
    repeat match goal with
           | |- context [Js.truthy_str ?s] => destruct (Js.truthy_str s)
           end;
    destruct (page =? 0)%Z, (perPage =? 0)%Z;
    (split; [apply (bool_decide_unpack _); vm_compute; exact I|]);
    repeat (split; [reflexivity|]); try reflexivity;
    (split; [simpl; lia|]); repeat (split; [reflexivity|]); reflexivity.
Qed.

(** ** Submit and Prev *)

(** X19. After a submit and a successful answer to its fetch, the
    result list is the filtered answer in the order of the sort key, with
    nothing left of the list before: every record shown is in the answer
    and passes the filters. The total is the one of the answer, or the
    length of the list when the answer has none; the error is empty, the
    loading flag cleared, the page number 1. *)
Theorem submit_replaces (stored : option (list Doc)) (evs : list Event)
    (status : Z) (docs : option (list Doc)) (total : option Z) :
  let w := run evs (mount stored) in
  ok status = true →
  let w' := run [Submit; Settle (next_rid w) (Resolved status (Data docs total))] w in
  results (st w')
  = sortDocs (sortBy (params (st w)))
      (clientFilters (params (st w)) (default [] docs)) ∧
  (∀ d, d ∈ results (st w') →
        d ∈ default [] docs ∧ passes (params (st w)) d = true) ∧
  numFound (st w') = default (Z.of_nat (length (results (st w')))) total ∧
  error (st w') = "" ∧ loading (st w') = false ∧ page (st w') = 1%Z.
Proof.
  intros w Hok w'.
  assert (ids_fresh (upd_st (setPage 1) w)) as Hfresh.
  { apply (ids_fresh_reachable w). by exists stored, evs. }
  pose proof (find_exec_start (MkExec (st w) false) _ Hfresh) as Hfind.
  assert (st w' =
          exec_settle (MkExec (st w) false) (Resolved status (Data docs total))
            (st (exec_start (MkExec (st w) false) (upd_st (setPage 1) w))))
    as Hst.
  { subst w'.
    change (run [Submit; Settle (next_rid w) ?o] w)
      with (step (Settle (next_rid w) o)
              (exec_start (MkExec (st w) false) (upd_st (setPage 1) w))).
    cbn [next_rid upd_st] in Hfind.
    erewrite step_Settle; [|rewrite Hfind; unfold exec_start; simpl;
                            apply last_snoc].
    reflexivity. }
  rewrite Hst, exec_settle_data by done. cbv zeta.
  cbn [results numFound error loading page setLoading setNumFound setResults
       setAvailablePublishers setAvailableSubjects setAvailableLangs].
  unfold merged. cbn [append render]. repeat split.
  - apply sortDocs_elem_of, list_elem_of_In in H.
    rewrite clientFilters_filter in H. apply filter_In in H as [H _].
    by apply list_elem_of_In.
  - apply sortDocs_elem_of, list_elem_of_In in H.
    rewrite clientFilters_filter in H. by apply filter_In in H as [_ H].
Qed.

Lemma submit_replaces_witness :
  let w := run [DebounceFire;
                Settle 0 (Resolved 200
                  (Data (Some [titled "/works/OL1W" "Dune"]) (Some 2%Z)))]
             (mount None) in
  let w' := run [Submit;
                 Settle (next_rid w)
                   (Resolved 200 (Data (Some [titled "/works/OL2W" "Emma"]) None))] w in
  results (st w')
  = sortDocs (sortBy (params (st w)))
      (clientFilters (params (st w)) (default [] (Some [titled "/works/OL2W" "Emma"]))) ∧
  (∀ d, d ∈ results (st w') →
        d ∈ default [] (Some [titled "/works/OL2W" "Emma"]) ∧
        passes (params (st w)) d = true) ∧
  numFound (st w') = default (Z.of_nat (length (results (st w')))) None ∧
  error (st w') = "" ∧ loading (st w') = false ∧ page (st w') = 1%Z.
Proof.
  exact (submit_replaces None
           [DebounceFire;
            Settle 0 (Resolved 200
              (Data (Some [titled "/works/OL1W" "Dune"]) (Some 2%Z)))]
           200 (Some [titled "/works/OL2W" "Emma"]) None eq_refl).
Defined.

(** X20. When the button Prev is enabled and no other timeout is
    pending, a click and the firing of its timeout leave the page number
    one lower, and issue a fetch that replaces the result list; the
    address of that fetch carries the page number of the render of the
    click, the one from before the decrement. *)
Theorem prev_fetches_render_page (w : World) :
  loading (st w) = false →
  (1 < page (st w))%Z →
  timeouts w = [] →
  let w' := run [Prev; TimeoutFire] w in
  page (st w') = (page (st w) - 1)%Z ∧
  ∃ r, last (inflight w') = Some r ∧
       rid r = next_rid w ∧ aborted r = false ∧
       append (awaiting r) = false ∧
       Url.get "page" (Url.searchParams (url r)) = Some (pretty (page (st w))).
Proof.
  intros Hl Hp Ht w'.
  assert (w' = exec_start (MkExec (st w) false)
                 {| st := setPage (page (st w) - 1) (st w);
                    abortRef := abortRef w; debounceTimer := debounceTimer w;
                    timeouts := []; inflight := inflight w;
                    next_rid := next_rid w |}) as ->.
  { subst w'. unfold run. cbn [fold_left]. cbn [step]. rewrite Hl.
    destruct (Z.leb_spec (page (st w)) 1) as [|_]; [lia|]. cbn [orb].
    unfold onPrev. destruct (Z.ltb_spec 1 (page (st w))) as [_|]; [|lia].
    unfold setTimeout0, upd_st. cbn [timeouts st abortRef debounceTimer inflight
      next_rid]. rewrite Ht. cbn [app]. by rewrite Z.max_r by lia. }
  split; [reflexivity|]. unfold exec_start. cbn [inflight next_rid render params].
  eexists. rewrite last_snoc. split; [reflexivity|].
  cbn [rid aborted awaiting append url]. rewrite buildQueryUrl_page.
  repeat split. by destruct (Z.eqb_spec (page (st w)) 0); [lia|].
Qed.

Lemma prev_fetches_render_page_witness :
  page (st second_page) = 2%Z ∧
  let w' := run [Prev; TimeoutFire] second_page in
  page (st w') = (page (st second_page) - 1)%Z ∧
  ∃ r, last (inflight w') = Some r ∧
       rid r = next_rid second_page ∧ aborted r = false ∧
       append (awaiting r) = false ∧
       Url.get "page" (Url.searchParams (url r))
       = Some (pretty (page (st second_page))).
Proof.
  split; [reflexivity|].
  by apply (prev_fetches_render_page second_page).
Defined.
